(** * ndtpso_slam: the scan-matching node

    A shallow embedding of [src/ndtpso_slam/src/ndtpso_slam_node.cpp]: the
    global state of the node, the laser callback [scan_mathcher], the
    start-up code of [main] and its publish loop.

    The node is built on the class [NDTFrame] (headers [ndtpso_slam/ndtframe.h]
    and [ndtpso_slam/ndtcell.h]), which is not among the files verified here; the
    frame and the alignment engine are modelled from the specification
    (section "NDT frame and alignment engine" below).  Functions of external
    libraries (libm, tf, the random source) are collected in the class
    [Externals].

    Compile-time switches are taken as the source sets them:
    [SAVE_MAP_DATA_TO_FILE = true], [SYNC_WITH_LASER_TOPIC = false],
    [SYNC_WITH_ODOM = false], [WAIT_FOR_TF = true], no [BUILD_OCCUPANCY_GRID]. *)

From Stdlib Require Import ZArith List Bool Ascii String Floats Lia.
Import ListNotations.

Set Implicit Arguments.

(* ================================================================= *)
(** * C++ scalars *)

(** [double] is IEEE-754 binary64, Rocq's primitive [float]. *)
Abbreviation double := float.

(** [static_cast<unsigned short>(n)] for an [int] n. *)
Definition to_unsigned_short (n : Z) : Z := (n mod 2 ^ 16)%Z.

(** Arithmetic on [unsigned int] wraps modulo 2^32. *)
Definition to_unsigned_int (n : Z) : Z := (n mod 2 ^ 32)%Z.

(** The implicit conversion [int -> double] (exact for 32-bit integers). *)
Definition int_to_double (n : Z) : double :=
  if (n <? 0)%Z then (- PrimFloat.of_uint63 (Uint63.of_Z (- n)))%float
  else PrimFloat.of_uint63 (Uint63.of_Z n).

(* ================================================================= *)
(** * Eigen vectors *)

Record Vector3d : Set := mkVector3d { v3_x : double; v3_y : double; v3_z : double }.

Record Vector2d : Set := mkVector2d { v2_x : double; v2_y : double }.

(** [Vector3d::Zero()] *)
Definition Vector3d_Zero : Vector3d := mkVector3d 0 0 0.

Definition v3_add (a b : Vector3d) : Vector3d :=
  mkVector3d (v3_x a + v3_x b)%float (v3_y a + v3_y b)%float (v3_z a + v3_z b)%float.

Definition v3_sub (a b : Vector3d) : Vector3d :=
  mkVector3d (v3_x a - v3_x b)%float (v3_y a - v3_y b)%float (v3_z a - v3_z b)%float.

Definition v3_scale (c : double) (a : Vector3d) : Vector3d :=
  mkVector3d (c * v3_x a)%float (c * v3_y a)%float (c * v3_z a)%float.

(* ================================================================= *)
(** * ROS messages and tf values *)

Record ros_Time : Set := mkTime { sec : Z; nsec : Z }.

(** [ros::Time::toSec()]: [sec + 1e-9 * nsec]; the literal is the binary64
    value nearest to 1e-9. *)
Definition toSec (t : ros_Time) : double :=
  (int_to_double (sec t) + 0x1.12e0be826d695p-30 * int_to_double (nsec t))%float.

Record Header : Set := mkHeader { hdr_seq : Z; stamp : ros_Time; frame_id : string }.

(** [sensor_msgs::LaserScan]; its [float32] fields are embedded in [double]. *)
Record LaserScan : Set := mkLaserScan {
  scan_header : Header;
  angle_min : double;
  angle_max : double;
  angle_increment : double;
  range_min : double;
  range_max : double;
  ranges : list double
}.

Record Point : Set := mkPoint { pt_x : double; pt_y : double; pt_z : double }.

Record Quaternion : Set := mkQuaternion { q_x : double; q_y : double; q_z : double; q_w : double }.

Record Pose : Set := mkPose { position : Point; orientation : Quaternion }.

(** [geometry_msgs::PoseStamped] *)
Record PoseStamped : Set := mkPoseStamped { header : Header; pose : Pose }.

(** A value-initialised [geometry_msgs::PoseStamped]: what the static
    [current_pub_pose] holds until it is assigned. *)
Definition PoseStamped_default : PoseStamped :=
  mkPoseStamped (mkHeader 0 (mkTime 0 0) EmptyString)
                (mkPose (mkPoint 0 0 0) (mkQuaternion 0 0 0 0)).

(** Squared norm of a quaternion; a rotation has norm 1. *)
Definition quaternion_length2 (q : Quaternion) : double :=
  (q_x q * q_x q + q_y q * q_y q + q_z q * q_z q + q_w q * q_w q)%float.

(** [tf::StampedTransform]: the origin given to [setOrigin], the quaternion
    given to [setRotation], the stamp and the two frame names. *)
Record StampedTransform : Set := mkStampedTransform {
  tf_origin : Point;
  tf_rotation : Quaternion;
  tf_stamp : ros_Time;
  tf_frame_id : string;
  tf_child_frame_id : string
}.

(* ================================================================= *)
(** * NDT frame: data *)

(** The three fields of [PSOConfig] that [main] assigns. *)
Record PSOConfig : Set := mkPSOConfig {
  populationSize : Z;
  iterations : Z;
  num_threads : Z
}.

Record NDTPSOConfig : Set := mkNDTPSOConfig { psoConfig : PSOConfig }.

(** Modelled from the spec: the class [NDTFrame] (ndtframe.h) is missing from
    the sources.  A frame has an origin pose, a square extent of
    [width] x [height] metres cut into cells of side [cell_side], a flag
    (reference frame or local frame), its configuration, the points inserted
    into its cells in insertion order, and its trajectory records
    (timestamp, estimated pose). *)
Record NDTFrame : Set := mkNDTFrame {
  s_trans : Vector3d;
  width : Z;
  height : Z;
  cell_side : double;
  is_reference : bool;
  s_config : NDTPSOConfig;
  points : list Vector2d;
  poses : list (double * Vector3d)
}.

(** Modelled from the spec: a particle of the alignment engine holds a
    candidate pose offset, a velocity and the best offset it has seen with
    its score ([None] before its first evaluation). *)
Record Particle : Set := mkParticle {
  offset : Vector3d;
  velocity : Vector3d;
  best : option (Vector3d * double)
}.

(** Modelled from the spec: the swarm of one alignment call, its particles
    and the best offset any of them has seen, with its score. *)
Record Swarm : Set := mkSwarm {
  particles : list Particle;
  global_best : option (Vector3d * double)
}.

(* ================================================================= *)
(** * What the node takes from outside *)

(** Functions and constants that the node and the engine use and that are
    taken as parameters: libm's [cos] and [sin], two functions of tf, the
    density of a point under the cell of a frame that contains it (the
    [score] of the spec's distribution cell, a regularised Gaussian; ndtcell.h
    is not among the files), the random source of the particle swarm as the
    sequence of its draws in [0,1], the tuning constants of the swarm and the
    defaults of ndtframe.h. *)
Class Externals : Set := {
  cos : double -> double;
  sin : double -> double;
  tf_setRPY : double -> double -> double -> Quaternion;
  tf_getYaw : Quaternion -> double;
  cell_score : NDTFrame -> Vector2d -> double;
  rnd : nat -> double;
  pso_search_radius : Vector3d;
  pso_max_velocity : Vector3d;
  pso_inertia : double;
  pso_cognitive : double;
  pso_social : double;
  PSO_ITERATIONS : Z;
  PSO_POPULATION_SIZE : Z;
  NDTPSOConfig_default : NDTPSOConfig
}.

(* ================================================================= *)
(** * NDT frame and alignment engine *)

Section NDT.

Context {E : Externals}.

Local Open Scope float_scope.

(** Modelled from the spec: the constructor of [NDTFrame], whose arguments
    are, in the order of the calls in [main], the origin pose, the width and
    the height of the extent, the cell side, the reference flag and,
    optionally, the configuration (ndtframe.h's default otherwise).  A new
    frame holds no point and no trajectory record. *)
Definition NDTFrame_new (trans : Vector3d) (w h : Z) (side : double)
    (reference : bool) (config : option NDTPSOConfig) : NDTFrame :=
  {| s_trans := trans; width := w; height := h; cell_side := side;
     is_reference := reference;
     s_config := match config with Some c => c | None => NDTPSOConfig_default end;
     points := []; poses := [] |}.

(** Modelled from the spec: the number of cells per axis, size / cell_side. *)
Definition cells_per_axis (f : NDTFrame) : double :=
  int_to_double (width f) / cell_side f.

(** Modelled from the spec: [setOrigin] (the code's [setTrans]) sets the
    origin pose of the frame. *)
Definition setTrans (f : NDTFrame) (trans : Vector3d) : NDTFrame :=
  {| s_trans := trans; width := width f; height := height f;
     cell_side := cell_side f; is_reference := is_reference f;
     s_config := s_config f; points := points f; poses := poses f |}.

(** Modelled from the spec: the frame with its points replaced. *)
Definition with_points (f : NDTFrame) (ps : list Vector2d) : NDTFrame :=
  {| s_trans := s_trans f; width := width f; height := height f;
     cell_side := cell_side f; is_reference := is_reference f;
     s_config := s_config f; points := ps; poses := poses f |}.

(** Modelled from the spec: a pose (x, y, theta) applied to a point. *)
Definition transform_point (p : Vector2d) (t : Vector3d) : Vector2d :=
  mkVector2d (v2_x p * cos (v3_z t) - v2_y p * sin (v3_z t) + v3_x t)
             (v2_x p * sin (v3_z t) + v2_y p * cos (v3_z t) + v3_y t).

(** Modelled from the spec: pi, as the binary64 value nearest to it. *)
Definition PI : double := 0x1.921fb54442d18p+1.

(** Modelled from the spec: headings are kept in (-pi, pi]. *)
Definition normalize_angle (a : double) : double :=
  if PI <? a then a - 2 * PI
  else if a <=? - PI then a + 2 * PI
  else a.

(** Modelled from the spec: composition of two planar rigid transforms,
    [previousPose (+) offset]. *)
Definition compose (a b : Vector3d) : Vector3d :=
  mkVector3d (v3_x a + (v3_x b * cos (v3_z a) - v3_y b * sin (v3_z a)))
             (v3_y a + (v3_x b * sin (v3_z a) + v3_y b * cos (v3_z a)))
             (normalize_angle (v3_z a + v3_z b)).

(** Modelled from the spec: the extent of a frame.  The spec fixes its size
    and leaves its place open; the model centres it on the frame's origin
    and counts the lower edges in. *)
Definition in_extent (f : NDTFrame) (p : Vector2d) : bool :=
  let hw := int_to_double (width f) / 2 in
  let hh := int_to_double (height f) / 2 in
  (- hw <=? v2_x p) && (v2_x p <? hw) && (- hh <=? v2_y p) && (v2_y p <? hh).

(** Modelled from the spec: insertion of a point; a point outside the
    extent is dropped. *)
Definition addPoint (f : NDTFrame) (p : Vector2d) : NDTFrame :=
  if in_extent f p then with_points f (points f ++ [p]) else f.

(** Modelled from the spec: whether a frame's pose is zero. *)
Definition is_zero_pose (t : Vector3d) : bool :=
  (v3_x t =? 0) && (v3_y t =? 0) && (v3_z t =? 0).

(** Modelled from the spec: one sample of a scan.  A range that is not
    finite, not positive or not below [max_range] is dropped; the others
    become a Cartesian point, moved by the frame's pose when it is not zero,
    and are inserted. *)
Definition loadSample (min_angle increment max_range : double)
    (f : NDTFrame) (ir : nat * double) : NDTFrame :=
  let (i, r) := ir in
  if negb (is_finite r) || (r <=? 0) || (max_range <=? r) then f
  else
    let theta := min_angle + int_to_double (Z.of_nat i) * increment in
    let p := mkVector2d (r * cos theta) (r * sin theta) in
    addPoint f (if is_zero_pose (s_trans f) then p else transform_point p (s_trans f)).

(** Modelled from the spec: [loadScan] (the code's [loadLaser]). *)
Definition loadLaser (f : NDTFrame) (laser_data : list double)
    (min_angle increment max_range : double) : NDTFrame :=
  fold_left (loadSample min_angle increment max_range)
            (combine (List.seq 0 (List.length laser_data)) laser_data) f.

(** Modelled from the spec: [fuse] (the code's [update]) applies the pose to
    every point of the other frame and inserts each into this frame. *)
Definition update (f : NDTFrame) (trans : Vector3d) (new_frame : NDTFrame) : NDTFrame :=
  fold_left (fun g p => addPoint g (transform_point p trans)) (points new_frame) f.

(** Modelled from the spec: [appendTrajectory] (the code's [addPose]). *)
Definition addPose (f : NDTFrame) (timestamp : double) (p : Vector3d) : NDTFrame :=
  {| s_trans := s_trans f; width := width f; height := height f;
     cell_side := cell_side f; is_reference := is_reference f;
     s_config := s_config f; points := points f;
     poses := poses f ++ [(timestamp, p)] |}.

(** Modelled from the spec: [evaluate] sums, over the points of the other
    frame moved by the candidate pose, the density of each under this
    frame's cells; a point that lands outside the extent adds nothing (and a
    point in an unscored cell adds the zero that [cell_score] gives it). *)
Definition evaluate (f : NDTFrame) (candidate : Vector3d) (other : NDTFrame) : double :=
  fold_left (fun acc p =>
               let q := transform_point p candidate in
               if in_extent f q then acc + cell_score f q else acc)
            (points other) 0.

(** ** The alignment engine (particle swarm) *)

(** Modelled from the spec: a draw [u] of [0,1] spread over [lo, hi]. *)
Definition uniform (lo hi u : double) : double := lo + u * (hi - lo).

(** Modelled from the spec: three draws of the random source, from position
    [k] on, spread over [-r, r] on each axis. *)
Definition draw3 (r : Vector3d) (k : nat) : Vector3d :=
  mkVector3d (uniform (- v3_x r) (v3_x r) (rnd k))
             (uniform (- v3_y r) (v3_y r) (rnd (1 + k)))
             (uniform (- v3_z r) (v3_z r) (rnd (2 + k))).

(** Modelled from the spec: step 1, a swarm of [n] particles with random
    offsets within the search radius and small random velocities.  The second
    component is the position of the random source afterwards. *)
Fixpoint init_swarm (n k : nat) : list Particle * nat :=
  match n with
  | O => ([], k)
  | S n' =>
      let p := mkParticle (draw3 pso_search_radius k)
                          (draw3 pso_max_velocity (3 + k)) None in
      let (ps, k') := init_swarm n' (6 + k) in
      (p :: ps, k')
  end.

(** Modelled from the spec: a score improves on a best when it is strictly
    higher (the search maximises); anything improves on no best at all. *)
Definition improves (old : option (Vector3d * double)) (s : double) : bool :=
  match old with
  | None => true
  | Some (_, b) => b <? s
  end.

(** Modelled from the spec: step 2, the fitness of a particle and the update
    of its personal best. *)
Definition assess (fitness : Vector3d -> double) (p : Particle) : Particle :=
  let s := fitness (offset p) in
  if improves (best p) s
  then mkParticle (offset p) (velocity p) (Some (offset p, s))
  else p.

(** Modelled from the spec: the better of a global best and the personal
    best of a particle. *)
Definition better (g : option (Vector3d * double)) (p : Particle)
    : option (Vector3d * double) :=
  match best p with
  | Some (o, s) => if improves g s then Some (o, s) else g
  | None => g
  end.

(** Modelled from the spec: the reduction of the personal bests to the
    swarm's global best at the end of an iteration. *)
Definition reduce_best (g : option (Vector3d * double)) (ps : list Particle)
    : option (Vector3d * double) :=
  fold_left better ps g.

(** Modelled from the spec: clipping to the search bounds. *)
Definition clamp (lo hi x : double) : double :=
  if x <? lo then lo else if hi <? x then hi else x.

(** Modelled from the spec: clipping of an offset, axis by axis. *)
Definition clamp3 (r x : Vector3d) : Vector3d :=
  mkVector3d (clamp (- v3_x r) (v3_x r) (v3_x x))
             (clamp (- v3_y r) (v3_y r) (v3_y x))
             (clamp (- v3_z r) (v3_z r) (v3_z x)).

(** Modelled from the spec: where a best pulls a particle; no best pulls
    nowhere. *)
Definition attractor (b : option (Vector3d * double)) (p : Particle) : Vector3d :=
  match b with
  | Some (o, _) => o
  | None => offset p
  end.

(** Modelled from the spec: the velocity of a particle becomes inertia times
    its velocity, plus a pull toward its personal best, plus a pull toward
    the global best, each pull scaled by a draw of its own; the offset moves
    by the velocity and is clipped to the search bounds. *)
Definition move (g : option (Vector3d * double)) (k : nat) (p : Particle) : Particle :=
  let v :=
    v3_add (v3_scale pso_inertia (velocity p))
      (v3_add
         (v3_scale (pso_cognitive * rnd k) (v3_sub (attractor (best p) p) (offset p)))
         (v3_scale (pso_social * rnd (1 + k)) (v3_sub (attractor g p) (offset p)))) in
  mkParticle (clamp3 pso_search_radius (v3_add (offset p) v)) v (best p).

(** Modelled from the spec: every particle moves, each with two draws of
    its own. *)
Fixpoint move_all (g : option (Vector3d * double)) (k : nat) (ps : list Particle)
    : list Particle * nat :=
  match ps with
  | [] => ([], k)
  | p :: ps' =>
      let (ps'', k') := move_all g (2 + k) ps' in
      (move g k p :: ps'', k')
  end.

(** Modelled from the spec: one iteration.  Every particle is assessed, the
    bests are reduced to the global best (the iteration barrier), then every
    particle moves. *)
Definition pso_iteration (fitness : Vector3d -> double) (sw : Swarm) (k : nat)
    : Swarm * nat :=
  let ps := map (assess fitness) (particles sw) in
  let g := reduce_best (global_best sw) ps in
  let (ps', k') := move_all g k ps in
  (mkSwarm ps' g, k').

(** Modelled from the spec: [n] iterations. *)
Fixpoint pso_iterations (fitness : Vector3d -> double) (n : nat) (sw : Swarm) (k : nat)
    : Swarm * nat :=
  match n with
  | O => (sw, k)
  | S n' =>
      let (sw', k') := pso_iteration fitness sw k in
      pso_iterations fitness n' sw' k'
  end.

(** Modelled from the spec: the search of one alignment call, with fitness
    [referenceFrame.evaluate(previousPose (+) offset, localFrame)]. *)
Definition pso_search (ref : NDTFrame) (prev : Vector3d) (cur : NDTFrame) (k : nat)
    : Swarm * nat :=
  let cfg := psoConfig (s_config ref) in
  let (ps, k') := init_swarm (Z.to_nat (populationSize cfg)) k in
  pso_iterations (fun o => evaluate ref (compose prev o) cur)
                 (Z.to_nat (iterations cfg)) (mkSwarm ps None) k'.

(** Modelled from the spec: the alignment engine, [align].  Step 3: the
    global-best offset composed with the previous pose is accepted when its
    score improves on the score of the previous pose itself (the zero-offset
    candidate, "doing nothing"); otherwise the previous pose is returned
    unchanged.  The second component is the position of the random source
    after the call. *)
Definition align (ref : NDTFrame) (prev : Vector3d) (cur : NDTFrame) (k : nat)
    : Vector3d * nat :=
  let (sw, k') := pso_search ref prev cur k in
  (match global_best sw with
   | Some (o, s) => if evaluate ref prev cur <? s then compose prev o else prev
   | None => prev
   end, k').

(** ** The invariant of the search *)

(** A recorded best carries the fitness of its own offset. *)
Definition scored (fitness : Vector3d -> double) (b : option (Vector3d * double)) : Prop :=
  match b with
  | Some (o, s) => s = fitness o
  | None => True
  end.

(** The invariant of the search: every personal best is a true score, and
    the global best is the personal best of some particle. *)
Definition swarm_ok (fitness : Vector3d -> double) (sw : Swarm) : Prop :=
  Forall (fun p => scored fitness (best p)) (particles sw) /\
  (forall x, global_best sw = Some x -> In (Some x) (map best (particles sw))).

End NDT.

(* ================================================================= *)
(** * The node: global state *)

(** What the node does that another process or thread can see: operations on
    [matcher_mutex], messages published on the topic "pose" and transforms
    given to the broadcaster. *)
Inductive Event : Set :=
| EvLock
| EvUnlock
| EvPublish (m : PoseStamped)
| EvSendTransform (t : StampedTransform).

(** The file-scope statics of the node, the function-static [iter_num] of
    [scan_mathcher], the position of the random source and the events so far.
    The frames are held by value: the three pointers never alias.  The clocks
    [start_time] and [last_call_time] feed log lines only and are left out, as
    are the log lines themselves. *)
Record State : Set := mkState {
  matcher_mutex : bool;
  param_frame_size : Z;
  param_cell_side : double;
  first_iteration : bool;
  number_of_iters : Z;
  previous_pose : Vector3d;
  trans_estimate : Vector3d;
  initial_pose : Vector3d;
  current_pose : Vector3d;
  current_frame : NDTFrame;
  ref_frame : NDTFrame;
  global_map : NDTFrame;
  current_pub_pose : PoseStamped;
  iter_num : Z;
  rand_pos : nat;
  trace : list Event
}.

Definition set_matcher_mutex (v : bool) (s : State) : State :=
  mkState v (param_frame_size s) (param_cell_side s) (first_iteration s)
    (number_of_iters s) (previous_pose s) (trans_estimate s) (initial_pose s)
    (current_pose s) (current_frame s) (ref_frame s) (global_map s)
    (current_pub_pose s) (iter_num s) (rand_pos s) (trace s).

Definition set_first_iteration (v : bool) (s : State) : State :=
  mkState (matcher_mutex s) (param_frame_size s) (param_cell_side s) v
    (number_of_iters s) (previous_pose s) (trans_estimate s) (initial_pose s)
    (current_pose s) (current_frame s) (ref_frame s) (global_map s)
    (current_pub_pose s) (iter_num s) (rand_pos s) (trace s).

Definition set_number_of_iters (v : Z) (s : State) : State :=
  mkState (matcher_mutex s) (param_frame_size s) (param_cell_side s)
    (first_iteration s) v (previous_pose s) (trans_estimate s)
    (initial_pose s) (current_pose s) (current_frame s) (ref_frame s)
    (global_map s) (current_pub_pose s) (iter_num s) (rand_pos s) (trace s).

Definition set_previous_pose (v : Vector3d) (s : State) : State :=
  mkState (matcher_mutex s) (param_frame_size s) (param_cell_side s)
    (first_iteration s) (number_of_iters s) v (trans_estimate s)
    (initial_pose s) (current_pose s) (current_frame s) (ref_frame s)
    (global_map s) (current_pub_pose s) (iter_num s) (rand_pos s) (trace s).

Definition set_current_pose (v : Vector3d) (s : State) : State :=
  mkState (matcher_mutex s) (param_frame_size s) (param_cell_side s)
    (first_iteration s) (number_of_iters s) (previous_pose s)
    (trans_estimate s) (initial_pose s) v (current_frame s) (ref_frame s)
    (global_map s) (current_pub_pose s) (iter_num s) (rand_pos s) (trace s).

Definition set_current_frame (v : NDTFrame) (s : State) : State :=
  mkState (matcher_mutex s) (param_frame_size s) (param_cell_side s)
    (first_iteration s) (number_of_iters s) (previous_pose s)
    (trans_estimate s) (initial_pose s) (current_pose s) v (ref_frame s)
    (global_map s) (current_pub_pose s) (iter_num s) (rand_pos s) (trace s).

Definition set_ref_frame (v : NDTFrame) (s : State) : State :=
  mkState (matcher_mutex s) (param_frame_size s) (param_cell_side s)
    (first_iteration s) (number_of_iters s) (previous_pose s)
    (trans_estimate s) (initial_pose s) (current_pose s) (current_frame s) v
    (global_map s) (current_pub_pose s) (iter_num s) (rand_pos s) (trace s).

Definition set_global_map (v : NDTFrame) (s : State) : State :=
  mkState (matcher_mutex s) (param_frame_size s) (param_cell_side s)
    (first_iteration s) (number_of_iters s) (previous_pose s)
    (trans_estimate s) (initial_pose s) (current_pose s) (current_frame s)
    (ref_frame s) v (current_pub_pose s) (iter_num s) (rand_pos s) (trace s).

Definition set_current_pub_pose (v : PoseStamped) (s : State) : State :=
  mkState (matcher_mutex s) (param_frame_size s) (param_cell_side s)
    (first_iteration s) (number_of_iters s) (previous_pose s)
    (trans_estimate s) (initial_pose s) (current_pose s) (current_frame s)
    (ref_frame s) (global_map s) v (iter_num s) (rand_pos s) (trace s).

Definition set_iter_num (v : Z) (s : State) : State :=
  mkState (matcher_mutex s) (param_frame_size s) (param_cell_side s)
    (first_iteration s) (number_of_iters s) (previous_pose s)
    (trans_estimate s) (initial_pose s) (current_pose s) (current_frame s)
    (ref_frame s) (global_map s) (current_pub_pose s) v (rand_pos s) (trace s).

Definition set_rand_pos (v : nat) (s : State) : State :=
  mkState (matcher_mutex s) (param_frame_size s) (param_cell_side s)
    (first_iteration s) (number_of_iters s) (previous_pose s)
    (trans_estimate s) (initial_pose s) (current_pose s) (current_frame s)
    (ref_frame s) (global_map s) (current_pub_pose s) (iter_num s) v (trace s).

Definition set_trace (v : list Event) (s : State) : State :=
  mkState (matcher_mutex s) (param_frame_size s) (param_cell_side s)
    (first_iteration s) (number_of_iters s) (previous_pose s)
    (trans_estimate s) (initial_pose s) (current_pose s) (current_frame s)
    (ref_frame s) (global_map s) (current_pub_pose s) (iter_num s)
    (rand_pos s) v.

(* ================================================================= *)
(** * A state monad with blocking *)

(** A statement of the node: it runs on the global state and gives a value
    and the new state, or nothing when it can never return (a [lock] of a
    mutex the caller itself holds). *)
Definition M (A : Type) : Type := State -> option (A * State).

Definition ret {A : Type} (a : A) : M A := fun s => Some (a, s).

Definition bind {A B : Type} (m : M A) (f : A -> M B) : M B :=
  fun s => match m s with
           | Some (a, s') => f a s'
           | None => None
           end.

Declare Scope node_scope.
Delimit Scope node_scope with node.
Bind Scope node_scope with M.

Notation "x <- m ;; k" := (bind m (fun x => k))
  (at level 61, m at next level, right associativity) : node_scope.
Notation "m ;; k" := (bind m (fun _ => k))
  (at level 61, right associativity) : node_scope.

Definition gets {A : Type} (f : State -> A) : M A := fun s => Some (f s, s).

Definition modify (f : State -> State) : M unit := fun s => Some (tt, f s).

Definition emit (e : Event) : M unit :=
  modify (fun s => set_trace (trace s ++ [e]) s).

(** [m] runs from [s] to completion and leaves [s']. *)
Definition exec (m : M unit) (s s' : State) : Prop := m s = Some (tt, s').

(** [matcher_mutex.lock()]: returns once the mutex is free, and never when
    the only thread there is holds it. *)
Definition lock : M unit :=
  fun s => if matcher_mutex s then None
           else (modify (set_matcher_mutex true) ;; emit EvLock)%node s.

(** [matcher_mutex.unlock()] *)
Definition unlock : M unit :=
  (modify (set_matcher_mutex false) ;; emit EvUnlock)%node.

(* ================================================================= *)
(** * The node: compile-time constants *)

Definition SAVE_DATA_TO_FILE_EACH_NUM_ITERS : Z := 10.
Definition DEFAULT_CELL_SIZE_M : double := 0.5.
Definition DEFAULT_FRAME_SIZE_M : Z := 100.
Definition DEFAULT_SCAN_TOPIC : string := "/scan".
Definition DEFAULT_LIDAR_FRAME : string := "laser".
Definition DEFAULT_OUTPUT_MAP_SIZE_M : Z := 25.
Definition DEFAULT_RATE_HZ : Z := 30.
Definition DEFAULT_PUBLISHED_POSE_FRAME_ID : string := "map".

(* ================================================================= *)
(** * The laser callback *)

Section Node.

Context {E : Externals}.

Local Open Scope node_scope.

(** [current_frame->loadLaser(scan->ranges, scan->angle_min,
    scan->angle_increment, scan->range_max);] *)
Definition load_scan (scan : LaserScan) : M unit :=
  cf <- gets current_frame ;;
  modify (set_current_frame
            (loadLaser cf (ranges scan) (angle_min scan) (angle_increment scan)
                       (range_max scan))).

(** [if (first_iteration) current_pose = previous_pose;
     else current_pose = ref_frame->align(previous_pose, current_frame);] *)
Definition estimate_pose : M unit :=
  first <- gets first_iteration ;;
  prev <- gets previous_pose ;;
  if first then modify (set_current_pose prev)
  else
    rf <- gets ref_frame ;;
    cf <- gets current_frame ;;
    k <- gets rand_pos ;;
    modify (set_current_pose (fst (align rf prev cf k))) ;;
    modify (set_rand_pos (snd (align rf prev cf k))).

(** [previous_pose = current_pose;] *)
Definition accept_pose : M unit :=
  cur <- gets current_pose ;;
  modify (set_previous_pose cur).

(** [ref_frame->update(current_pose, current_frame);] *)
Definition fuse_reference : M unit :=
  rf <- gets ref_frame ;;
  cur <- gets current_pose ;;
  cf <- gets current_frame ;;
  modify (set_ref_frame (update rf cur cf)).

(** [if (iter_num == 0) global_map->update(current_pose, current_frame);
     iter_num = (iter_num + 1) % SAVE_DATA_TO_FILE_EACH_NUM_ITERS;
     global_map->addPose(scan->header.stamp.toSec(), current_pose);] *)
Definition fuse_map (scan : LaserScan) : M unit :=
  n <- gets iter_num ;;
  cur <- gets current_pose ;;
  cf <- gets current_frame ;;
  (if (n =? 0)%Z
   then gm <- gets global_map ;; modify (set_global_map (update gm cur cf))
   else ret tt) ;;
  modify (set_iter_num
            ((to_unsigned_int (n + 1) mod SAVE_DATA_TO_FILE_EACH_NUM_ITERS)%Z)) ;;
  gm <- gets global_map ;;
  modify (set_global_map (addPose gm (toSec (stamp (scan_header scan))) cur)).

(** The assignments to [current_pub_pose]: stamp of the scan, frame id
    "map", position (x, y, 0) and the orientation [setRPY(0, 0, yaw)]. *)
Definition fill_pub_pose (scan : LaserScan) : M unit :=
  cur <- gets current_pose ;;
  old <- gets current_pub_pose ;;
  let q_ori := tf_setRPY 0 0 (v3_z cur) in
  modify (set_current_pub_pose
            (mkPoseStamped
               (mkHeader (hdr_seq (header old)) (stamp (scan_header scan))
                         DEFAULT_PUBLISHED_POSE_FRAME_ID)
               (mkPose (mkPoint (v3_x cur) (v3_y cur) 0)
                       (mkQuaternion (q_x q_ori) (q_y q_ori) (q_z q_ori) (q_w q_ori))))).

(** [delete current_frame;
     current_frame = new NDTFrame(initial_pose,
         static_cast<unsigned short>(param_frame_size),
         static_cast<unsigned short>(param_frame_size), param_frame_size, false);] *)
Definition reallocate_frame : M unit :=
  ip <- gets initial_pose ;;
  size <- gets param_frame_size ;;
  modify (set_current_frame
            (NDTFrame_new ip (to_unsigned_short size) (to_unsigned_short size)
                          (int_to_double size) false None)).

(** [++number_of_iters; first_iteration = false;] *)
Definition count_iteration : M unit :=
  n <- gets number_of_iters ;;
  modify (set_number_of_iters (to_unsigned_int (n + 1))) ;;
  modify (set_first_iteration false).

(** [void scan_mathcher(const sensor_msgs::LaserScanConstPtr &scan)] *)
Definition scan_mathcher (scan : LaserScan) : M unit :=
  lock ;;
  load_scan scan ;;
  estimate_pose ;;
  accept_pose ;;
  fuse_reference ;;
  fuse_map scan ;;
  fill_pub_pose scan ;;
  reallocate_frame ;;
  count_iteration ;;
  unlock.

(** The local frame once the scan is loaded into it. *)
Definition loaded_frame (scan : LaserScan) (st : State) : NDTFrame :=
  loadLaser (current_frame st) (ranges scan) (angle_min scan)
            (angle_increment scan) (range_max scan).

(** The pose that the engine returns for the scan, from the state at the
    start of the cycle. *)
Definition aligned_pose (scan : LaserScan) (st : State) : Vector3d :=
  fst (align (ref_frame st) (previous_pose st) (loaded_frame scan st) (rand_pos st)).

(** The pose message for a pose and the stamp of its scan. *)
Definition pose_message (old : PoseStamped) (scan : LaserScan) (p : Vector3d)
    : PoseStamped :=
  mkPoseStamped
    (mkHeader (hdr_seq (header old)) (stamp (scan_header scan)) "map")
    (mkPose (mkPoint (v3_x p) (v3_y p) 0)
            (mkQuaternion (q_x (tf_setRPY 0 0 (v3_z p))) (q_y (tf_setRPY 0 0 (v3_z p)))
                          (q_z (tf_setRPY 0 0 (v3_z p))) (q_w (tf_setRPY 0 0 (v3_z p))))).

(* ================================================================= *)
(** * [main]: start-up *)

(** The parameter server: the value of each parameter [main] reads, when it
    is set. *)
Record ParamServer : Set := mkParamServer {
  p_scan_topic : option string;
  p_scan_frame : option string;
  p_map_size : option Z;
  p_num_threads : option Z;
  p_iterations : option Z;
  p_population : option Z;
  p_rate : option Z;
  p_cell_side : option double;
  p_frame_size : option Z
}.

(** [nh.param(name, variable, default)] *)
Definition nh_param {A : Type} (value : option A) (default : A) : A :=
  match value with
  | Some v => v
  | None => default
  end.

(** The state in which [main] enters its loop, from the parameter server and
    the transform "base_link" -> lidar frame that tf returns.  Statics that
    [main] does not assign hold their initialisers. *)
Definition main_init (ps : ParamServer) (transform : StampedTransform) : State :=
  let ndtpso_conf :=
    mkNDTPSOConfig
      (mkPSOConfig (nh_param (p_population ps) PSO_POPULATION_SIZE)
                   (nh_param (p_iterations ps) PSO_ITERATIONS)
                   (nh_param (p_num_threads ps) (-1)%Z)) in
  let param_map_size := nh_param (p_map_size ps) DEFAULT_OUTPUT_MAP_SIZE_M in
  let cell_side := nh_param (p_cell_side ps) DEFAULT_CELL_SIZE_M in
  let frame_size := nh_param (p_frame_size ps) DEFAULT_FRAME_SIZE_M in
  let initial_trans :=
    mkVector3d (pt_x (tf_origin transform)) (pt_y (tf_origin transform))
               (tf_getYaw (tf_rotation transform)) in
  {| matcher_mutex := false;
     param_frame_size := frame_size;
     param_cell_side := cell_side;
     first_iteration := true;
     number_of_iters := 0;
     previous_pose := Vector3d_Zero;
     trans_estimate := Vector3d_Zero;
     initial_pose := Vector3d_Zero;
     current_pose := Vector3d_Zero;
     current_frame :=
       setTrans (NDTFrame_new Vector3d_Zero (to_unsigned_short frame_size)
                              (to_unsigned_short frame_size) cell_side false None)
                initial_trans;
     ref_frame :=
       NDTFrame_new Vector3d_Zero (to_unsigned_short frame_size)
                    (to_unsigned_short frame_size) cell_side true (Some ndtpso_conf);
     global_map :=
       NDTFrame_new Vector3d_Zero (to_unsigned_short param_map_size)
                    (to_unsigned_short param_map_size)
                    (int_to_double param_map_size) false None;
     current_pub_pose := PoseStamped_default;
     iter_num := 0;
     rand_pos := 0;
     trace := [] |}.

(* ================================================================= *)
(** * [main]: the publish loop *)

(** [ros::spinOnce()]: the callbacks of the scans that wait are run one
    after the other, in the calling thread. *)
Fixpoint spinOnce (pending : list LaserScan) : M unit :=
  match pending with
  | [] => ret tt
  | scan :: rest => scan_mathcher scan ;; spinOnce rest
  end.

(** The transform that a turn of the loop broadcasts for a pose message:
    [transform_.setOrigin(tf::Vector3(position.x, position.y, 0.0));
     tf::Quaternion q_(orientation.x, orientation.y, orientation.z, orientation.w);
     transform_.setRotation(q_);
     tf::StampedTransform(transform_, ros::Time::now(), "map", "laser")] *)
Definition map_to_laser (msg : PoseStamped) (now : ros_Time) : StampedTransform :=
  mkStampedTransform
    (mkPoint (pt_x (position (pose msg))) (pt_y (position (pose msg))) 0)
    (mkQuaternion (q_x (orientation (pose msg))) (q_y (orientation (pose msg)))
                  (q_z (orientation (pose msg))) (q_w (orientation (pose msg))))
    now "map" "laser".

(** [pose_pub.publish(current_pub_pose); ... br.sendTransform(...);]: the
    statements of a turn after [ros::spinOnce()].  They take no lock. *)
Definition publish_step (now : ros_Time) : M unit :=
  msg <- gets current_pub_pose ;;
  emit (EvPublish msg) ;;
  emit (EvSendTransform (map_to_laser msg now)).

(** One turn of [while (ros::ok())]: the scans that arrived since the last
    turn, and the clock at the broadcast. *)
Definition loop_iteration (turn : list LaserScan * ros_Time) : M unit :=
  spinOnce (fst turn) ;;
  publish_step (snd turn).

Fixpoint main_loop (turns : list (list LaserScan * ros_Time)) : M unit :=
  match turns with
  | [] => ret tt
  | turn :: rest => loop_iteration turn ;; main_loop rest
  end.

(* ================================================================= *)
(** * What is observed of a run *)

(** Between two calls of the callback: the mutex is free and the counter of
    [fuse_map] is below its modulus. *)
Definition idle (st : State) : Prop :=
  matcher_mutex st = false /\ (0 <= iter_num st < SAVE_DATA_TO_FILE_EACH_NUM_ITERS)%Z.

(** The events of [n] cycles. *)
Fixpoint cycles_trace (n : nat) : list Event :=
  match n with
  | O => []
  | S n' => EvLock :: EvUnlock :: cycles_trace n'
  end.

(** The scans of a run of the loop, in the order of their callbacks. *)
Definition scans_of (turns : list (list LaserScan * ros_Time)) : list LaserScan :=
  List.concat (map fst turns).

(** Whether the mutex is held after the events [tr], when [held] says
    whether it was before. *)
Fixpoint mutex_after (held : bool) (tr : list Event) : bool :=
  match tr with
  | [] => held
  | EvLock :: rest => mutex_after true rest
  | EvUnlock :: rest => mutex_after false rest
  | _ :: rest => mutex_after held rest
  end.

(** For each publication among the events [tr], in order: whether the mutex
    was held when [current_pub_pose] was read for it. *)
Fixpoint mutex_at_publishes (held : bool) (tr : list Event) : list bool :=
  match tr with
  | [] => []
  | EvLock :: rest => mutex_at_publishes true rest
  | EvUnlock :: rest => mutex_at_publishes false rest
  | EvPublish _ :: rest => held :: mutex_at_publishes held rest
  | EvSendTransform _ :: rest => mutex_at_publishes held rest
  end.

(** Turns of the loop in which no scan waits, one per reading of the
    clock. *)
Definition idle_turns (clocks : list ros_Time) : list (list LaserScan * ros_Time) :=
  map (fun now => ([], now)) clocks.

(** The time of a scan as the trajectory records it. *)
Definition scan_time (scan : LaserScan) : double := toSec (stamp (scan_header scan)).

End Node.

(* ================================================================= *)
(** * [main]: the name of the export files *)

(** A [std::string] is the list of its characters. *)
Abbreviation std_string := (list Ascii.ascii).

Definition slash : Ascii.ascii := "/"%char.

Definition underscore : Ascii.ascii := "_"%char.

(** How a statement over strings ends: it returns a string, it throws
    ([std::out_of_range]), or the model ran out of steps before it ended. *)
Inductive outcome : Set :=
| Returned (s : std_string)
| Thrown
| Unfinished.

(** The index of the first '/' of a string, if it has one. *)
Fixpoint first_slash (s : std_string) : option nat :=
  match s with
  | [] => None
  | c :: rest =>
      if Ascii.eqb c slash then Some O else option_map S (first_slash rest)
  end.

(** [s.find("/", pos)]: the index of the first '/' at or after [pos];
    [None] is [std::string::npos]. *)
Definition find_slash (s : std_string) (pos : nat) : option nat :=
  option_map (Nat.add pos) (first_slash (skipn pos s)).

(** [s.replace(pos, 1, "_")]: the character at [pos], if there is one, gives
    way to '_' (at [pos = s.size()] the '_' is appended); [pos > s.size()]
    throws, which is [None]. *)
Definition replace_by_underscore (s : std_string) (pos : nat) : option std_string :=
  if (pos <=? List.length s)%nat
  then Some (firstn pos s ++ underscore :: skipn (S pos) s)
  else None.

(** [do { param_scan_topic.replace(pos, 1, "_");
          pos = param_scan_topic.find("/", pos);
     } while (pos != std::string::npos);]
    with at most [fuel] turns of the loop. *)
Fixpoint rename_loop (fuel : nat) (s : std_string) (pos : nat) : outcome :=
  match fuel with
  | O => Unfinished
  | S fuel' =>
      match replace_by_underscore s pos with
      | None => Thrown
      | Some s' =>
          match find_slash s' pos with
          | None => Returned s'
          | Some pos' => rename_loop fuel' s' pos'
          end
      end
  end.

(** [size_t pos = 0; do ... while ...;] on the scan topic that [main] read. *)
Definition export_topic (fuel : nat) (ps : ParamServer) : outcome :=
  rename_loop fuel
    (list_ascii_of_string (nh_param (p_scan_topic ps) DEFAULT_SCAN_TOPIC)) 0.

(** A character with '/' turned into '_'. *)
Definition underscored (c : Ascii.ascii) : Ascii.ascii :=
  if Ascii.eqb c slash then underscore else c.

(* ================================================================= *)
(** * What two runs have in common *)

(** Two states of the node that differ at most in the events recorded. *)
Definition same_statics (a b : State) : Prop := set_trace [] a = set_trace [] b.

(** The events of one turn of the loop in which the message [msg] is
    published: a lock and an unlock per scan, the publication, the
    broadcast. *)
Definition turn_events (turn : list LaserScan * ros_Time) (msg : PoseStamped)
    : list Event :=
  cycles_trace (List.length (fst turn)) ++
  [EvPublish msg; EvSendTransform (map_to_laser msg (snd turn))].

(** The events of a run, turn by turn. *)
Fixpoint run_events (turns : list (list LaserScan * ros_Time)) (msgs : list PoseStamped)
    : list Event :=
  match turns, msgs with
  | turn :: turns', msg :: msgs' => turn_events turn msg ++ run_events turns' msgs'
  | _, _ => []
  end.

(** The pose message lies in the plane z = 0. *)
Definition flat_message (st : State) : Prop :=
  pt_z (position (pose (current_pub_pose st))) = 0%float.

(** An output of the node that lies in the plane z = 0 and, for a
    transform, leads from "map" to "laser". *)
Definition planar_event (e : Event) : Prop :=
  match e with
  | EvPublish m => pt_z (position (pose m)) = 0%float
  | EvSendTransform t =>
      pt_z (tf_origin t) = 0%float /\
      tf_frame_id t = "map"%string /\ tf_child_frame_id t = "laser"%string
  | _ => True
  end.

(* ================================================================= *)
(** * A reference instance of the externals *)

(** Concrete externals, to run the model on examples: polynomial [cos] and
    [sin] (good for small angles), tf's [setRPY] over them, a small-angle
    [getYaw], a density that decreases with the distance to the frame's
    points, and a linear congruential random source.  The theorems about the
    node hold for every instance of [Externals]; this one only serves the
    examples. *)
Module Reference.

Local Open Scope float_scope.
#[local] Set Warnings "-inexact-float".

Definition cos_poly (x : double) : double :=
  let x2 := x * x in
  1 - x2 / 2 + x2 * x2 / 24 - x2 * x2 * x2 / 720.

Definition sin_poly (x : double) : double :=
  let x2 := x * x in
  x - x * x2 / 6 + x * x2 * x2 / 120 - x * x2 * x2 * x2 / 5040.

(** [tf::Quaternion::setRPY] *)
Definition setRPY (roll pitch yaw : double) : Quaternion :=
  let cy := cos_poly (yaw * 0.5) in
  let sy := sin_poly (yaw * 0.5) in
  let cp := cos_poly (pitch * 0.5) in
  let sp := sin_poly (pitch * 0.5) in
  let cr := cos_poly (roll * 0.5) in
  let sr := sin_poly (roll * 0.5) in
  mkQuaternion (sr * cp * cy - cr * sp * sy)
               (cr * sp * cy + sr * cp * sy)
               (cr * cp * sy - sr * sp * cy)
               (cr * cp * cy + sr * sp * sy).

Definition getYaw (q : Quaternion) : double := 2 * q_z q * q_w q.

Definition density (f : NDTFrame) (q : Vector2d) : double :=
  fold_left (fun acc r =>
               let dx := v2_x q - v2_x r in
               let dy := v2_y q - v2_y r in
               acc + 1 / (1 + 100 * (dx * dx + dy * dy)))
            (points f) 0.

Fixpoint lcg (k : nat) : Z :=
  match k with
  | O => 12345
  | S k' => ((1103515245 * lcg k' + 12345) mod 2 ^ 31)%Z
  end.

Definition random (k : nat) : double :=
  int_to_double (lcg (S k)) / int_to_double (2 ^ 31).

#[local] Instance externals : Externals := {|
  cos := cos_poly;
  sin := sin_poly;
  tf_setRPY := setRPY;
  tf_getYaw := getYaw;
  cell_score := density;
  rnd := random;
  pso_search_radius := mkVector3d 0.1 0.1 0.1;
  pso_max_velocity := mkVector3d 0.02 0.02 0.02;
  pso_inertia := 0.7;
  pso_cognitive := 1.5;
  pso_social := 1.5;
  PSO_ITERATIONS := 4;
  PSO_POPULATION_SIZE := 6;
  NDTPSOConfig_default := mkNDTPSOConfig (mkPSOConfig 6 4 (-1))
|}.

(** No parameter is set: every default applies. *)
Definition no_params : ParamServer :=
  mkParamServer None None None None None None None None None.

(** A lidar mounted 0.25 m ahead of "base_link", not rotated. *)
Definition mount : StampedTransform :=
  mkStampedTransform (mkPoint 0.25 0 0) (mkQuaternion 0 0 0 1) (mkTime 0 0)
                     "base_link" "laser".

Definition scan_at (t : Z) (rs : list double) : LaserScan :=
  mkLaserScan (mkHeader 0 (mkTime t 0) "laser") (-0.25) 0.25 0.25 0.1 10 rs.

(** Three beams that hit a wall 1 m ahead, then the same wall seen from 5 cm
    closer. *)
Definition scan1 : LaserScan := scan_at 1 [1; 1; 1].
Definition scan2 : LaserScan := scan_at 2 [0.95; 0.95; 0.95].

(** The state a statement leaves, or the state itself if it blocks. *)
Definition after (m : M unit) (s : State) : State :=
  match m s with
  | Some (_, s') => s'
  | None => s
  end.

Definition st0 : State := main_init no_params mount.
Definition st1 : State := after (scan_mathcher scan1) st0.
Definition st2 : State := after (scan_mathcher scan2) st1.

End Reference.

Arguments loadLaser : simpl never.
Arguments align : simpl never.
Arguments update : simpl never.
Arguments addPose : simpl never.
Arguments NDTFrame_new : simpl never.
Arguments to_unsigned_int : simpl never.
Arguments to_unsigned_short : simpl never.
Arguments int_to_double : simpl never.
Arguments toSec : simpl never.

(* ================================================================= *)
(** * The order on scores *)

Section FloatOrder.

Local Open Scope float_scope.

Lemma ltb_leb (x y : double) : (x <? y) = true -> (x <=? y) = true.
Proof.
  rewrite ltb_spec, leb_spec.
  unfold SFltb, SFleb.
  destruct (SFcompare (Prim2SF x) (Prim2SF y)) as [[ | | ] | ]; congruence.
Qed.

(** A score that is a number is at most itself. *)
Lemma leb_refl (x : double) : is_nan x = false -> (x <=? x) = true.
Proof.
  unfold is_nan.
  rewrite eqb_spec, leb_spec.
  unfold SFeqb, SFleb.
  destruct (SFcompare (Prim2SF x) (Prim2SF x)) as [[ | | ] | ]; simpl; congruence.
Qed.

(** The comparison of the specification of binary64, swapped. *)
Lemma SFcompare_Lt_swap (x y : spec_float) :
  SFcompare x y = Some Lt -> SFcompare y x = Some Gt.
Proof.
  destruct x as [s1 | s1 | | s1 m1 e1], y as [s2 | s2 | | s2 m2 e2]; simpl;
    try destruct s1; try destruct s2; try congruence;
    rewrite (Z.compare_antisym e1 e2);
    change (Pos.compare_cont Eq m2 m1) with (Pos.compare m2 m1);
    change (Pos.compare_cont Eq m1 m2) with (Pos.compare m1 m2);
    rewrite (Pos.compare_antisym m1 m2);
    destruct (e1 ?= e2)%Z, (m1 ?= m2)%positive; simpl; congruence.
Qed.

(** [<?] is asymmetric, NaN or not. *)
Lemma ltb_asym (x y : double) : (x <? y) = true -> (y <? x) = false.
Proof.
  rewrite !ltb_spec. unfold SFltb.
  destruct (SFcompare (Prim2SF x) (Prim2SF y)) as [[ | | ] | ] eqn:Hxy;
    try discriminate.
  intros _. now rewrite (SFcompare_Lt_swap _ _ Hxy).
Qed.

Lemma ltb_irrefl (x : double) : (x <? x) = false.
Proof.
  destruct (x <? x) eqn:Hlt; [ | reflexivity].
  pose proof (ltb_asym Hlt). congruence.
Qed.

End FloatOrder.

(* ================================================================= *)
(** * The alignment engine keeps true scores *)

Section EngineFacts.

Context {E : Externals}.

Variable fitness : Vector3d -> double.

Lemma assess_scored (p : Particle) :
  scored fitness (best p) -> scored fitness (best (assess fitness p)).
Proof.
  intros Hp. unfold assess.
  destruct (improves (best p) (fitness (offset p))); simpl; auto.
Qed.

Lemma assess_best (p : Particle) :
  best (assess fitness p) = best p \/
  (improves (best p) (fitness (offset p)) = true /\
   best (assess fitness p) = Some (offset p, fitness (offset p))).
Proof.
  unfold assess.
  destruct (improves (best p) (fitness (offset p))) eqn:Hi; simpl; auto.
Qed.

Lemma move_all_best (g : option (Vector3d * double)) (ps : list Particle) :
  forall k, map best (fst (move_all g k ps)) = map best ps.
Proof.
  induction ps as [ | p ps IH]; intros k; simpl.
  - reflexivity.
  - specialize (IH (S (S k))).
    destruct (move_all g (S (S k)) ps) as [ps' k'].
    simpl in *. now rewrite IH.
Qed.

(** The reduction either finds no particle that improves on [g] and keeps
    [g], or ends on the personal best of one of the particles. *)
Lemma reduce_best_cases (ps : list Particle) :
  forall g,
    (reduce_best g ps = g /\
     forall p o s, In p ps -> best p = Some (o, s) -> improves g s = false) \/
    (exists x, reduce_best g ps = Some x /\ In (Some x) (map best ps)).
Proof.
  induction ps as [ | p ps IH]; intros g.
  - left. split; [reflexivity | intros p o s []].
  - change (reduce_best g (p :: ps)) with (reduce_best (better g p) ps).
    assert (Hcase :
      (better g p = g /\ forall o s, best p = Some (o, s) -> improves g s = false) \/
      (exists x, better g p = Some x /\ best p = Some x)).
    { unfold better. destruct (best p) as [[o s] | ].
      - destruct (improves g s) eqn:Hi.
        + right. exists (o, s). auto.
        + left. split; [reflexivity | ]. intros o' s' Heq.
          injection Heq as <- <-. exact Hi.
      - left. split; [reflexivity | discriminate]. }
    destruct Hcase as [[Hsame Hnot] | [x [Hx Hbx]]].
    + rewrite Hsame.
      destruct (IH g) as [[Hkeep Hno] | [y [Hy Hin]]].
      * left. split; [exact Hkeep | ].
        intros p' o s [<- | Hin] Hb'; eauto.
      * right. exists y. simpl. auto.
    + rewrite Hx. right.
      destruct (IH (Some x)) as [[Hkeep _] | [y [Hy Hin]]].
      * exists x. split; [exact Hkeep | ]. simpl. now left.
      * exists y. simpl. auto.
Qed.

Lemma pso_iteration_ok (sw : Swarm) (k : nat) :
  swarm_ok fitness sw -> swarm_ok fitness (fst (pso_iteration fitness sw k)).
Proof.
  intros [Hps Hg]. unfold pso_iteration.
  set (ps := map (assess fitness) (particles sw)).
  set (g := reduce_best (global_best sw) ps).
  pose proof (move_all_best g ps k) as Hmove.
  destruct (move_all g k ps) as [ps' k']. simpl in Hmove.
  split; simpl.
  - (* personal bests *)
    assert (Hps1 : Forall (fun p => scored fitness (best p)) ps).
    { subst ps. rewrite Forall_map.
      eapply Forall_impl; [ | exact Hps]. intros p. apply assess_scored. }
    rewrite Forall_forall in *. intros p Hp.
    assert (Hin : In (best p) (map best ps)) by (rewrite <- Hmove; now apply in_map).
    apply in_map_iff in Hin. destruct Hin as [q [Hq Hqin]].
    rewrite <- Hq. now apply Hps1.
  - (* the global best *)
    intros x Hx. rewrite Hmove.
    destruct (reduce_best_cases ps (global_best sw)) as [[Hkeep Hno] | [y [Hy Hin]]].
    + fold g in Hkeep. rewrite Hkeep in Hx.
      specialize (Hg x Hx).
      apply in_map_iff in Hg. destruct Hg as [q [Hq Hqin]].
      destruct (assess_best q) as [Hsame | [Himp Hnew]].
      * apply in_map_iff. exists (assess fitness q).
        split; [congruence | subst ps; now apply in_map].
      * exfalso.
        assert (Hin1 : In (assess fitness q) ps) by (subst ps; now apply in_map).
        specialize (Hno _ _ _ Hin1 Hnew).
        rewrite Hq in Himp. rewrite Hx in Hno. congruence.
    + fold g in Hy. congruence.
Qed.

Lemma pso_iterations_ok (n : nat) :
  forall sw k, swarm_ok fitness sw -> swarm_ok fitness (fst (pso_iterations fitness n sw k)).
Proof.
  induction n as [ | n IH]; intros sw k Hok; simpl.
  - exact Hok.
  - pose proof (pso_iteration_ok k Hok) as Hstep.
    destruct (pso_iteration fitness sw k) as [sw' k'].
    now apply IH.
Qed.

Lemma init_swarm_unscored (n : nat) :
  forall k, Forall (fun p => scored fitness (best p)) (fst (init_swarm n k)).
Proof.
  induction n as [ | n IH]; intros k; simpl.
  - constructor.
  - specialize (IH (S (S (S (S (S (S k))))))).
    destruct (init_swarm n (S (S (S (S (S (S k))))))) as [ps k'].
    constructor; simpl; auto.
Qed.

(** The global best of a swarm that satisfies the invariant is a true
    score. *)
Lemma global_best_scored (sw : Swarm) (o : Vector3d) (s : double) :
  swarm_ok fitness sw -> global_best sw = Some (o, s) -> s = fitness o.
Proof.
  intros [Hps Hg] Hb.
  apply Hg in Hb. apply in_map_iff in Hb. destruct Hb as [p [Hp Hin]].
  rewrite Forall_forall in Hps. specialize (Hps p Hin).
  rewrite Hp in Hps. exact Hps.
Qed.

End EngineFacts.

Section AlignFacts.

Context {E : Externals}.

Local Open Scope float_scope.

Lemma pso_search_ok (rf : NDTFrame) (prev : Vector3d) (cf : NDTFrame) (k : nat) :
  swarm_ok (fun o => evaluate rf (compose prev o) cf) (fst (pso_search rf prev cf k)).
Proof.
  unfold pso_search.
  pose proof (init_swarm_unscored (fun o => evaluate rf (compose prev o) cf)
                (Z.to_nat (populationSize (psoConfig (s_config rf)))) k) as Hinit.
  destruct (init_swarm _ k) as [ps k'].
  apply pso_iterations_ok. split; simpl; [exact Hinit | discriminate].
Qed.

(** * C1 *)

(** C1. The pose returned by the alignment engine never scores lower, under
    [evaluate] against the reference frame, than the previous pose it
    started from; it scores at least as high when the score of the previous
    pose is a number; and when no particle of the search has a best score
    that improves on the score of the previous pose - the zero-offset
    candidate -, the engine returns the previous pose unchanged. *)
Theorem align_never_regresses (rf : NDTFrame) (prev : Vector3d) (cf : NDTFrame) (k : nat) :
  (evaluate rf (fst (align rf prev cf k)) cf <? evaluate rf prev cf) = false /\
  (is_nan (evaluate rf prev cf) = false ->
   (evaluate rf prev cf <=? evaluate rf (fst (align rf prev cf k)) cf) = true) /\
  ((forall p o s, In p (particles (fst (pso_search rf prev cf k))) ->
                  best p = Some (o, s) -> (evaluate rf prev cf <? s) = false) ->
   fst (align rf prev cf k) = prev).
Proof.
  pose proof (pso_search_ok rf prev cf k) as Hok.
  unfold align.
  destruct (pso_search rf prev cf k) as [sw k']. simpl in *.
  destruct (global_best sw) as [[o s] | ] eqn:Hg.
  - pose proof (global_best_scored Hok Hg) as Hs.
    destruct (evaluate rf prev cf <? s) eqn:Hlt.
    + rewrite Hs in Hlt. repeat split.
      * now apply ltb_asym.
      * intros _. now apply ltb_leb.
      * intros Hnone.
        destruct Hok as [_ Hin]. specialize (Hin _ Hg).
        apply in_map_iff in Hin. destruct Hin as [p [Hp Hpin]].
        rewrite <- Hs in Hlt. rewrite (Hnone p o s Hpin Hp) in Hlt. discriminate.
    + repeat split; [apply ltb_irrefl | apply leb_refl].
  - repeat split; [apply ltb_irrefl | apply leb_refl].
Qed.

End AlignFacts.

(* ================================================================= *)
(** * One cycle of the callback *)

Section CycleFacts.

Context {E : Externals}.

Local Open Scope node_scope.

(** What one call of [scan_mathcher] does to the global state, when the
    mutex is free: the call returns, and every static is as listed. *)
Lemma scan_mathcher_effect (scan : LaserScan) (st : State) :
  matcher_mutex st = false ->
  exists st',
    exec (scan_mathcher scan) st st' /\
    let accepted :=
      if first_iteration st then previous_pose st else aligned_pose scan st in
    matcher_mutex st' = false /\
    first_iteration st' = false /\
    current_pose st' = accepted /\
    previous_pose st' = accepted /\
    ref_frame st' = update (ref_frame st) accepted (loaded_frame scan st) /\
    global_map st' =
      addPose (if (iter_num st =? 0)%Z
               then update (global_map st) accepted (loaded_frame scan st)
               else global_map st)
              (toSec (stamp (scan_header scan))) accepted /\
    iter_num st' =
      (to_unsigned_int (iter_num st + 1) mod SAVE_DATA_TO_FILE_EACH_NUM_ITERS)%Z /\
    current_frame st' =
      NDTFrame_new (initial_pose st) (to_unsigned_short (param_frame_size st))
                   (to_unsigned_short (param_frame_size st))
                   (int_to_double (param_frame_size st)) false None /\
    current_pub_pose st' = pose_message (current_pub_pose st) scan accepted /\
    rand_pos st' =
      (if first_iteration st then rand_pos st
       else snd (align (ref_frame st) (previous_pose st) (loaded_frame scan st)
                       (rand_pos st))) /\
    number_of_iters st' = to_unsigned_int (number_of_iters st + 1) /\
    trace st' = trace st ++ [EvLock; EvUnlock] /\
    param_frame_size st' = param_frame_size st /\
    param_cell_side st' = param_cell_side st /\
    initial_pose st' = initial_pose st /\
    trans_estimate st' = trans_estimate st.
Proof.
  intros Hfree.
  destruct st as [mm pfs pcs fi ni pp te ip cp cf rf gm cpp it rp tr].
  simpl in Hfree. subst mm.
  unfold exec, aligned_pose, loaded_frame.
  destruct fi, (it =? 0)%Z eqn:Hit;
    (eexists; split;
     [ cbv [scan_mathcher lock unlock load_scan estimate_pose accept_pose
            fuse_reference fuse_map fill_pub_pose reallocate_frame
            count_iteration bind gets modify ret emit];
       simpl; rewrite ?Hit; simpl; reflexivity
     | simpl; rewrite ?Hit, <- ?app_assoc; repeat split ]).
Qed.

End CycleFacts.

(* ================================================================= *)
(** * Runs of the callback and of the loop *)

Section RunFacts.

Context {E : Externals}.

Local Open Scope node_scope.

Lemma exec_bind (m k : M unit) (s s' s'' : State) :
  exec m s s' -> exec k s' s'' -> exec (m ;; k) s s''.
Proof.
  unfold exec, bind. intros Hm Hk. now rewrite Hm.
Qed.

Lemma main_init_idle (ps : ParamServer) (transform : StampedTransform) :
  idle (main_init ps transform).
Proof.
  unfold idle, SAVE_DATA_TO_FILE_EACH_NUM_ITERS. simpl. split; [reflexivity | lia].
Qed.

Lemma next_iter_num (n k : Z) :
  (0 <= n < SAVE_DATA_TO_FILE_EACH_NUM_ITERS)%Z ->
  ((to_unsigned_int (n + 1) mod SAVE_DATA_TO_FILE_EACH_NUM_ITERS + k)
     mod SAVE_DATA_TO_FILE_EACH_NUM_ITERS
   = (n + (1 + k)) mod SAVE_DATA_TO_FILE_EACH_NUM_ITERS)%Z.
Proof.
  unfold SAVE_DATA_TO_FILE_EACH_NUM_ITERS, to_unsigned_int. intros Hn.
  rewrite (Z.mod_small (n + 1) (2 ^ 32)) by lia.
  rewrite Zplus_mod_idemp_l. f_equal. lia.
Qed.

(** [spinOnce] returns, leaves the node idle, and advances the counter of
    [fuse_map] by the number of scans, modulo 10. *)
Lemma spinOnce_effect (scans : list LaserScan) :
  forall st, idle st ->
    exists st',
      exec (spinOnce scans) st st' /\ idle st' /\
      iter_num st' =
        ((iter_num st + Z.of_nat (List.length scans))
           mod SAVE_DATA_TO_FILE_EACH_NUM_ITERS)%Z /\
      trace st' = trace st ++ cycles_trace (List.length scans).
Proof.
  induction scans as [ | scan rest IH]; intros st [Hfree Hnum].
  - exists st. simpl. rewrite Z.add_0_r, Z.mod_small, app_nil_r by exact Hnum.
    repeat split; tauto.
  - destruct (scan_mathcher_effect scan st Hfree)
      as (s1 & Hrun & Hfree1 & _ & _ & _ & _ & _ & Hit & _ & _ & _ & _ & Htr & _).
    assert (Hidle1 : idle s1).
    { split; [exact Hfree1 | ]. rewrite Hit.
      apply Z.mod_pos_bound. reflexivity. }
    destruct (IH s1 Hidle1) as (s2 & Hrest & Hidle2 & Hit2 & Htr2).
    exists s2. split; [ | split; [exact Hidle2 | split]].
    + simpl. eapply exec_bind; eassumption.
    + rewrite Hit2, Hit. change (List.length (scan :: rest)) with (S (List.length rest)).
      rewrite Nat2Z.inj_succ, <- Z.add_1_l. now apply next_iter_num.
    + rewrite Htr2, Htr, <- app_assoc. reflexivity.
Qed.

(** The statements of the loop after [ros::spinOnce()] return, change no
    static, and add two events: the publication of [current_pub_pose] and
    the broadcast of the transform made from it. *)
Lemma publish_step_effect (now : ros_Time) (st : State) :
  exists st',
    exec (publish_step now) st st' /\
    trace st' =
      trace st ++ [EvPublish (current_pub_pose st);
                   EvSendTransform (map_to_laser (current_pub_pose st) now)] /\
    set_trace (trace st) st' = st.
Proof.
  destruct st as [mm pfs pcs fi ni pp te ip cp cf rf gm cpp it rp tr].
  eexists. split; [reflexivity | ]. simpl.
  rewrite <- app_assoc. split; reflexivity.
Qed.

Lemma mutex_after_app (a b : list Event) :
  forall held, mutex_after held (a ++ b) = mutex_after (mutex_after held a) b.
Proof.
  induction a as [ | [ | | m | t] a IH]; intros held; simpl; auto.
Qed.

Lemma mutex_at_publishes_app (a b : list Event) :
  forall held,
    mutex_at_publishes held (a ++ b) =
    mutex_at_publishes held a ++ mutex_at_publishes (mutex_after held a) b.
Proof.
  induction a as [ | [ | | m | t] a IH]; intros held; simpl; auto.
  now rewrite IH.
Qed.

Lemma cycles_trace_mutex (n : nat) :
  forall held,
    mutex_after held (cycles_trace n) = match n with O => held | S _ => false end /\
    mutex_at_publishes held (cycles_trace n) = [].
Proof.
  induction n as [ | n IH]; intros held; simpl; [auto | ].
  destruct (IH false) as [Hafter Hat]. rewrite Hafter, Hat.
  destruct n; auto.
Qed.

(** A run of the loop from an idle node returns and leaves the node idle;
    the counter of [fuse_map] has advanced by the number of scans, modulo
    10; and every turn has published once, with the mutex free. *)
Lemma main_loop_effect (turns : list (list LaserScan * ros_Time)) :
  forall st, idle st -> mutex_after false (trace st) = false ->
    exists st',
      exec (main_loop turns) st st' /\ idle st' /\
      iter_num st' =
        ((iter_num st + Z.of_nat (List.length (scans_of turns)))
           mod SAVE_DATA_TO_FILE_EACH_NUM_ITERS)%Z /\
      mutex_after false (trace st') = false /\
      mutex_at_publishes false (trace st') =
        mutex_at_publishes false (trace st) ++ repeat false (List.length turns).
Proof.
  induction turns as [ | [scans now] rest IH]; intros st Hidle Hclosed.
  - exists st. unfold scans_of. simpl.
    destruct Hidle as [Hfree Hnum].
    rewrite Z.add_0_r, Z.mod_small, app_nil_r by exact Hnum. repeat split; tauto.
  - destruct (spinOnce_effect scans Hidle) as (s1 & Hspin & Hidle1 & Hit1 & Htr1).
    destruct (publish_step_effect now s1) as (s2 & Hpub & Htr2 & Hsame).
    assert (Hfields : matcher_mutex s2 = matcher_mutex s1 /\ iter_num s2 = iter_num s1).
    { rewrite <- Hsame. split; reflexivity. }
    destruct Hfields as [Hmm Hit2].
    assert (Hidle2 : idle s2).
    { unfold idle. rewrite Hmm, Hit2. exact Hidle1. }
    destruct (cycles_trace_mutex (List.length scans) false) as [Hafter Hat].
    assert (Hafter' : mutex_after false (cycles_trace (List.length scans)) = false).
    { rewrite Hafter. now destruct (List.length scans). }
    assert (Hclosed1 : mutex_after false (trace s1) = false).
    { now rewrite Htr1, mutex_after_app, Hclosed. }
    assert (Hclosed2 : mutex_after false (trace s2) = false).
    { now rewrite Htr2, mutex_after_app, Hclosed1. }
    destruct (IH s2 Hidle2 Hclosed2) as (s3 & Hrest & Hidle3 & Hit3 & Hclosed3 & Hpubs).
    exists s3. split; [ | split; [exact Hidle3 | split; [ | split; [exact Hclosed3 | ]]]].
    + simpl. unfold loop_iteration. simpl.
      eapply exec_bind; [ | exact Hrest].
      eapply exec_bind; eassumption.
    + rewrite Hit3, Hit2, Hit1.
      unfold scans_of. simpl. rewrite length_app, Nat2Z.inj_add.
      rewrite Zplus_mod_idemp_l. f_equal. lia.
    + rewrite Hpubs, Htr2, mutex_at_publishes_app, Hclosed1.
      rewrite Htr1, mutex_at_publishes_app, Hclosed, Hat, app_nil_r.
      simpl. now rewrite <- app_assoc.
Qed.

(** Turns without scans return, change no static, and publish the same
    message at every turn. *)
Lemma idle_turns_effect (clocks : list ros_Time) :
  forall st,
    exists st',
      exec (main_loop (idle_turns clocks)) st st' /\
      set_trace (trace st) st' = st /\
      trace st' =
        trace st ++
        flat_map (fun now => [EvPublish (current_pub_pose st);
                              EvSendTransform (map_to_laser (current_pub_pose st) now)])
                 clocks.
Proof.
  induction clocks as [ | now rest IH]; intros st.
  - exists st. simpl. rewrite app_nil_r.
    destruct st; repeat split; reflexivity.
  - destruct (publish_step_effect now st) as (s1 & Hpub & Htr1 & Hsame1).
    destruct (IH s1) as (s2 & Hrest & Hsame2 & Htr2).
    assert (Hmsg : current_pub_pose s1 = current_pub_pose st).
    { rewrite <- Hsame1. reflexivity. }
    exists s2. split; [ | split].
    + simpl. unfold loop_iteration. simpl.
      eapply exec_bind; [ | exact Hrest].
      unfold exec, bind, ret. exact Hpub.
    + rewrite <- Hsame1, <- Hsame2. reflexivity.
    + rewrite Htr2, Htr1, Hmsg, <- app_assoc. reflexivity.
Qed.

End RunFacts.

(* ================================================================= *)
(** * Properties of the node *)

Section NodeProperties.

Context {E : Externals}.

Local Open Scope node_scope.

(** C3. In a cycle after the first, the callback first computes the pose by
    aligning the loaded local frame against the reference frame from the
    previous pose (the reference frame and the previous pose still as they
    were), then sets the previous pose to that pose (the reference frame
    still as it was), and only then fuses the reference frame with the local
    frame at exactly that pose; the cycle ends with both poses and the
    reference frame so. *)
Theorem cycle_aligns_accepts_then_fuses (scan : LaserScan) (st : State) :
  matcher_mutex st = false ->
  first_iteration st = false ->
  exists s1 s2 s3 st',
    exec (lock ;; load_scan scan ;; estimate_pose) st s1 /\
    exec accept_pose s1 s2 /\
    exec fuse_reference s2 s3 /\
    exec (fuse_map scan ;; fill_pub_pose scan ;; reallocate_frame ;;
          count_iteration ;; unlock) s3 st' /\
    exec (scan_mathcher scan) st st' /\
    (current_pose s1 = aligned_pose scan st /\
     previous_pose s1 = previous_pose st /\
     ref_frame s1 = ref_frame st /\
     current_frame s1 = loaded_frame scan st) /\
    (previous_pose s2 = aligned_pose scan st /\
     ref_frame s2 = ref_frame st) /\
    ref_frame s3 = update (ref_frame st) (aligned_pose scan st) (loaded_frame scan st) /\
    (current_pose st' = aligned_pose scan st /\
     previous_pose st' = aligned_pose scan st /\
     ref_frame st' = update (ref_frame st) (aligned_pose scan st) (loaded_frame scan st)).
Proof.
  intros Hfree Hnext.
  destruct st as [mm pfs pcs fi ni pp te ip cp cf rf gm cpp it rp tr].
  simpl in Hfree, Hnext. subst mm fi.
  unfold exec, aligned_pose, loaded_frame.
  destruct (it =? 0)%Z eqn:Hit;
    (do 4 eexists;
     split; [cbv [lock load_scan estimate_pose bind gets modify emit];
             simpl; reflexivity | ];
     split; [reflexivity | ];
     split; [reflexivity | ];
     split; [cbv [fuse_map fill_pub_pose reallocate_frame count_iteration unlock
                  bind gets modify ret emit];
             simpl; rewrite Hit; simpl; reflexivity | ];
     split; [cbv [scan_mathcher lock unlock load_scan estimate_pose accept_pose
                  fuse_reference fuse_map fill_pub_pose reallocate_frame
                  count_iteration bind gets modify ret emit];
             simpl; rewrite Hit; simpl; reflexivity | ];
     simpl; repeat split).
Qed.

(** C4, amended. Whatever ran before, a cycle fuses the local frame into the
    reference frame at the accepted pose and appends a trajectory record
    (stamp of the scan, accepted pose) to the map accumulator; it fuses the
    local frame into the map accumulator only when the number of scans
    processed before is a multiple of 10
    ([SAVE_DATA_TO_FILE_EACH_NUM_ITERS]): on cycles 1, 11, 21, ... *)
Theorem map_is_fused_every_tenth_cycle
    (ps : ParamServer) (transform : StampedTransform)
    (turns : list (list LaserScan * ros_Time)) (scan : LaserScan) :
  exists st st',
    exec (main_loop turns) (main_init ps transform) st /\
    exec (scan_mathcher scan) st st' /\
    ref_frame st' = update (ref_frame st) (current_pose st') (loaded_frame scan st) /\
    global_map st' =
      addPose (if (Z.of_nat (List.length (scans_of turns)) mod 10 =? 0)%Z
               then update (global_map st) (current_pose st') (loaded_frame scan st)
               else global_map st)
              (toSec (stamp (scan_header scan))) (current_pose st').
Proof.
  destruct (main_loop_effect turns (main_init_idle ps transform) eq_refl)
    as (st & Hloop & [Hfree Hnum] & Hit & _).
  destruct (scan_mathcher_effect scan st Hfree)
    as (st' & Hrun & _ & _ & Hcur & _ & Href & Hmap & _).
  exists st, st'. rewrite Hcur.
  repeat split; try assumption.
  rewrite Hmap, Hit. reflexivity.
Qed.

(** C7, amended. A call of the callback returns no value to its caller; it
    leaves the accepted pose in [current_pose] and [previous_pose] and in
    the message [current_pub_pose]: stamp of the scan, frame "map",
    position (x, y, 0), orientation [setRPY(0, 0, theta)]. *)
Theorem callback_leaves_pose_in_statics (scan : LaserScan) (st : State) :
  matcher_mutex st = false ->
  exists st',
    scan_mathcher scan st = Some (tt, st') /\
    current_pose st' =
      (if first_iteration st then previous_pose st else aligned_pose scan st) /\
    previous_pose st' = current_pose st' /\
    stamp (header (current_pub_pose st')) = stamp (scan_header scan) /\
    frame_id (header (current_pub_pose st')) = "map"%string /\
    position (pose (current_pub_pose st')) =
      mkPoint (v3_x (current_pose st')) (v3_y (current_pose st')) 0 /\
    orientation (pose (current_pub_pose st')) =
      mkQuaternion (q_x (tf_setRPY 0 0 (v3_z (current_pose st'))))
                   (q_y (tf_setRPY 0 0 (v3_z (current_pose st'))))
                   (q_z (tf_setRPY 0 0 (v3_z (current_pose st'))))
                   (q_w (tf_setRPY 0 0 (v3_z (current_pose st')))).
Proof.
  intros Hfree.
  destruct (scan_mathcher_effect scan st Hfree)
    as (st' & Hrun & _ & _ & Hcur & Hprev & _ & _ & _ & _ & Hmsg & _).
  exists st'. rewrite Hprev, Hcur, Hmsg.
  repeat split. exact Hrun.
Qed.

(** C8, amended. The statements of the publish loop proper - each turn
    without the callbacks that [ros::spinOnce()] runs - leave the current
    pose, the previous pose, the three frames, the pose message and the
    mutex as they are: any number of turns in which no scan waits only
    publishes the message and broadcasts its transform, once per turn.  The
    loop reads the message without a lock; in every run of the loop from
    start-up, with scans or without, each turn publishes once and the mutex
    is free at each publication: no cycle is in progress then, since the
    callbacks have returned before. *)
Theorem publish_loop_reads_without_lock :
  (forall (st : State) (clocks : list ros_Time),
     exists st',
       exec (main_loop (idle_turns clocks)) st st' /\
       current_pose st' = current_pose st /\
       previous_pose st' = previous_pose st /\
       ref_frame st' = ref_frame st /\
       current_frame st' = current_frame st /\
       global_map st' = global_map st /\
       current_pub_pose st' = current_pub_pose st /\
       matcher_mutex st' = matcher_mutex st /\
       trace st' =
         trace st ++
         flat_map (fun now => [EvPublish (current_pub_pose st);
                               EvSendTransform (map_to_laser (current_pub_pose st) now)])
                  clocks) /\
  (forall (ps : ParamServer) (transform : StampedTransform)
          (turns : list (list LaserScan * ros_Time)),
     exists st',
       exec (main_loop turns) (main_init ps transform) st' /\
       mutex_at_publishes false (trace st') = repeat false (List.length turns)).
Proof.
  split.
  - intros st clocks.
    destruct (idle_turns_effect clocks st) as (st' & Hrun & Hsame & Htr).
    exists st'. split; [exact Hrun | ].
    rewrite <- Hsame at 1 2 3 4 5 6 7. simpl. repeat split. exact Htr.
  - intros ps transform turns.
    destruct (main_loop_effect turns (main_init_idle ps transform) eq_refl)
      as (st' & Hrun & _ & _ & _ & Hpubs).
    exists st'. split; [exact Hrun | exact Hpubs].
Qed.

(** C9. On the first scan after start-up no alignment is done: the random
    source is not drawn from, the accepted pose is the previous pose, which
    is the initial pose, and the reference frame and the map accumulator are
    both fused with the local frame of that scan at that pose. *)
Theorem first_scan_is_fused_at_initial_pose
    (ps : ParamServer) (transform : StampedTransform) (scan : LaserScan) :
  exists st',
    exec (scan_mathcher scan) (main_init ps transform) st' /\
    previous_pose (main_init ps transform) = initial_pose (main_init ps transform) /\
    current_pose st' = initial_pose (main_init ps transform) /\
    previous_pose st' = initial_pose (main_init ps transform) /\
    rand_pos st' = rand_pos (main_init ps transform) /\
    ref_frame st' =
      update (ref_frame (main_init ps transform))
             (initial_pose (main_init ps transform))
             (loaded_frame scan (main_init ps transform)) /\
    global_map st' =
      addPose (update (global_map (main_init ps transform))
                      (initial_pose (main_init ps transform))
                      (loaded_frame scan (main_init ps transform)))
              (toSec (stamp (scan_header scan)))
              (initial_pose (main_init ps transform)).
Proof.
  destruct (scan_mathcher_effect scan (main_init ps transform) eq_refl)
    as (st' & Hrun & _ & _ & Hcur & Hprev & Href & Hmap & _ & _ & _ & Hrand & _).
  exists st'. rewrite Hcur, Hprev, Href, Hmap, Hrand.
  repeat split. exact Hrun.
Qed.

(** C10. As long as no scan has been processed, every turn of the loop
    publishes the value-initialised pose message - position (0, 0, 0),
    orientation (0, 0, 0, 0), which has norm 0 and not 1, and an empty frame
    id - and broadcasts the transform made from it: origin (0, 0, 0) and
    that quaternion, from "map" to "laser". *)
Theorem idle_node_publishes_default_pose
    (ps : ParamServer) (transform : StampedTransform) (clocks : list ros_Time) :
  exists st',
    exec (main_loop (idle_turns clocks)) (main_init ps transform) st' /\
    first_iteration st' = true /\
    trace st' =
      flat_map (fun now =>
                  [EvPublish PoseStamped_default;
                   EvSendTransform
                     (mkStampedTransform (mkPoint 0 0 0) (mkQuaternion 0 0 0 0)
                                         now "map" "laser")])
               clocks /\
    position (pose PoseStamped_default) = mkPoint 0 0 0 /\
    orientation (pose PoseStamped_default) = mkQuaternion 0 0 0 0 /\
    quaternion_length2 (orientation (pose PoseStamped_default)) = 0%float /\
    (quaternion_length2 (orientation (pose PoseStamped_default)) =? 1)%float = false /\
    frame_id (header PoseStamped_default) = EmptyString.
Proof.
  destruct (idle_turns_effect clocks (main_init ps transform))
    as (st' & Hrun & Hsame & Htr).
  exists st'. split; [exact Hrun | ].
  split.
  - change (first_iteration st') with (first_iteration (set_trace [] st')).
    change (@nil Event) with (trace (main_init ps transform)).
    now rewrite Hsame.
  - split; [exact Htr | repeat split].
Qed.

End NodeProperties.

(* ================================================================= *)
(** * The mutex, the trajectory and the local frame over a run *)

Section Runs.

Context {E : Externals}.

Local Open Scope node_scope.


Lemma addPoint_poses (f : NDTFrame) (p : Vector2d) : poses (addPoint f p) = poses f.
Proof.
  unfold addPoint. destruct (in_extent f p); reflexivity.
Qed.

(** Fusing points into a frame leaves its trajectory records alone. *)
Lemma update_poses (f : NDTFrame) (trans : Vector3d) (new_frame : NDTFrame) :
  poses (update f trans new_frame) = poses f.
Proof.
  unfold update. revert f.
  induction (points new_frame) as [ | p ps IH]; intros f; simpl.
  - reflexivity.
  - rewrite IH. apply addPoint_poses.
Qed.

Lemma spinOnce_records (scans : list LaserScan) :
  forall st, matcher_mutex st = false ->
    exists st',
      exec (spinOnce scans) st st' /\
      matcher_mutex st' = false /\
      map fst (poses (global_map st')) =
        map fst (poses (global_map st)) ++ map scan_time scans /\
      (points (current_frame st) = [] -> points (current_frame st') = []).
Proof.
  induction scans as [ | scan rest IH]; intros st Hfree.
  - exists st. simpl. rewrite app_nil_r. repeat split; auto.
  - destruct (scan_mathcher_effect scan st Hfree)
      as (s1 & Hrun & Hfree1 & _ & _ & _ & _ & Hmap & _ & Hframe & _).
    destruct (IH s1 Hfree1) as (s2 & Hrest & Hfree2 & Hrec & Hempty).
    exists s2. split; [ | split; [exact Hfree2 | split]].
    + simpl. eapply exec_bind; eassumption.
    + rewrite Hrec, Hmap. unfold addPose. simpl.
      rewrite map_app, <- app_assoc. simpl.
      destruct (iter_num st =? 0)%Z; [rewrite update_poses | ]; reflexivity.
    + intros _. apply Hempty. now rewrite Hframe.
Qed.

Lemma main_loop_records (turns : list (list LaserScan * ros_Time)) :
  forall st, matcher_mutex st = false ->
    exists st',
      exec (main_loop turns) st st' /\
      matcher_mutex st' = false /\
      map fst (poses (global_map st')) =
        map fst (poses (global_map st)) ++ map scan_time (scans_of turns) /\
      (points (current_frame st) = [] -> points (current_frame st') = []).
Proof.
  induction turns as [ | [scans now] rest IH]; intros st Hfree.
  - exists st. unfold scans_of. simpl. rewrite app_nil_r. repeat split; auto.
  - destruct (spinOnce_records scans st Hfree) as (s1 & Hspin & Hfree1 & Hrec1 & Hempty1).
    destruct (publish_step_effect now s1) as (s2 & Hpub & _ & Hsame).
    assert (Hfields : matcher_mutex s2 = matcher_mutex s1 /\
                      global_map s2 = global_map s1 /\
                      current_frame s2 = current_frame s1).
    { rewrite <- Hsame. repeat split. }
    destruct Hfields as (Hmm & Hgm & Hcf).
    assert (Hfree2 : matcher_mutex s2 = false) by congruence.
    destruct (IH s2 Hfree2) as (s3 & Hrest & Hfree3 & Hrec3 & Hempty3).
    exists s3. split; [ | split; [exact Hfree3 | split]].
    + simpl. unfold loop_iteration. simpl.
      eapply exec_bind; [ | exact Hrest].
      eapply exec_bind; eassumption.
    + rewrite Hrec3, Hgm, Hrec1. unfold scans_of. simpl.
      now rewrite map_app, <- app_assoc.
    + intros H0. apply Hempty3. rewrite Hcf. now apply Hempty1.
Qed.

(** X2. Over any run of the loop from start-up, the trajectory of the map
    accumulator has one record per scan processed, and their time stamps are
    those of the scans in the order in which the loop met them. *)
Theorem trajectory_follows_scan_order
    (ps : ParamServer) (transform : StampedTransform)
    (turns : list (list LaserScan * ros_Time)) :
  exists st',
    exec (main_loop turns) (main_init ps transform) st' /\
    map fst (poses (global_map st')) = map scan_time (scans_of turns).
Proof.
  destruct (main_loop_records turns (main_init ps transform) eq_refl)
    as (st' & Hrun & _ & Hrec & _).
  exists st'. split; [exact Hrun | exact Hrec].
Qed.

(** X3. Over any run of the loop from start-up, the local frame holds no point
    when the next scan arrives: the frame that a cycle loads holds the
    points of its own scan only. *)
Theorem local_frame_is_empty_between_cycles
    (ps : ParamServer) (transform : StampedTransform)
    (turns : list (list LaserScan * ros_Time)) :
  exists st',
    exec (main_loop turns) (main_init ps transform) st' /\
    points (current_frame st') = [].
Proof.
  destruct (main_loop_records turns (main_init ps transform) eq_refl)
    as (st' & Hrun & _ & _ & Hempty).
  exists st'. split; [exact Hrun | ].
  apply Hempty. reflexivity.
Qed.

End Runs.

(* ================================================================= *)
(** * The reallocated local frame *)

Section Reallocation.

Context {E : Externals}.

(** C6. The local frame built at start-up has the transform that tf returned
    as its origin; the local frame that the first cycle leaves for the next
    scan has the zero pose as its origin. *)
Theorem reallocated_frame_origin
    (ps : ParamServer) (transform : StampedTransform) (scan : LaserScan) :
  exists st',
    exec (scan_mathcher scan) (main_init ps transform) st' /\
    s_trans (current_frame (main_init ps transform)) =
      mkVector3d (pt_x (tf_origin transform)) (pt_y (tf_origin transform))
                 (tf_getYaw (tf_rotation transform)) /\
    s_trans (current_frame st') = Vector3d_Zero.
Proof.
  destruct (scan_mathcher_effect scan (main_init ps transform) eq_refl)
    as (st' & Hrun & _ & _ & _ & _ & _ & _ & _ & Hframe & _).
  exists st'. rewrite Hframe.
  repeat split. exact Hrun.
Qed.

End Reallocation.

(* ================================================================= *)
(** * Examples *)

(** The node run on the reference externals: start-up with no parameter set
    and the lidar 0.25 m ahead of "base_link", then [scan1], then [scan2]. *)
Section Examples.

Import Reference.

#[local] Existing Instance Reference.externals.

Local Open Scope float_scope.

(** Two values of type [double] on which [=?] computes to [false] are not
    equal. *)
Lemma float_neq (x y : double) : (x =? y) = false -> (x =? x) = true -> x <> y.
Proof.
  intros Hxy Hxx Heq. rewrite <- Heq in Hxy. congruence.
Qed.

Lemma st2_reached : exec (scan_mathcher scan2) st1 st2.
Proof. vm_compute. reflexivity. Qed.

(** C1 on the example: the engine on the second scan. *)
Lemma align_never_regresses_witness :
  (evaluate (ref_frame st1) (previous_pose st1) (loaded_frame scan2 st1)
   <=? evaluate (ref_frame st1) (aligned_pose scan2 st1) (loaded_frame scan2 st1))
  = true.
Proof.
  assert (Hnum : is_nan (evaluate (ref_frame st1) (previous_pose st1)
                                  (loaded_frame scan2 st1)) = false)
    by (vm_compute; reflexivity).
  exact (proj1 (proj2 (align_never_regresses (ref_frame st1) (previous_pose st1)
                          (loaded_frame scan2 st1) (rand_pos st1))) Hnum).
Defined.

(** C3 on the example: the second cycle. *)
Lemma cycle_aligns_accepts_then_fuses_witness :
  exists st',
    exec (scan_mathcher scan2) st1 st' /\
    previous_pose st' = aligned_pose scan2 st1 /\
    ref_frame st' =
      update (ref_frame st1) (aligned_pose scan2 st1) (loaded_frame scan2 st1).
Proof.
  assert (Hfree : matcher_mutex st1 = false) by (vm_compute; reflexivity).
  assert (Hnext : first_iteration st1 = false) by (vm_compute; reflexivity).
  destruct (cycle_aligns_accepts_then_fuses scan2 st1 Hfree Hnext)
    as (s1 & s2 & s3 & st' & _ & _ & _ & _ & Hrun & _ & _ & _ & _ & Hprev & Href).
  exists st'. auto.
Defined.

(** C4, as stated, fails on the second cycle of the example: the callback
    returns, the three points of the scan are fused into the reference
    frame, and the map accumulator holds the points it held before - it is
    not the map accumulator fused with the local frame. *)
Lemma map_skips_second_scan :
  exec (scan_mathcher scan2) st1 st2 /\
  points (ref_frame st2) =
    points (ref_frame st1) ++
    map (fun p => transform_point p (current_pose st2)) (points (loaded_frame scan2 st1)) /\
  List.length (points (loaded_frame scan2 st1)) = 3%nat /\
  points (global_map st2) = points (global_map st1) /\
  global_map st2 <>
    addPose (update (global_map st1) (current_pose st2) (loaded_frame scan2 st1))
            (toSec (stamp (scan_header scan2))) (current_pose st2).
Proof.
  split; [exact st2_reached | ].
  split; [vm_compute; reflexivity | ].
  split; [vm_compute; reflexivity | ].
  split; [vm_compute; reflexivity | ].
  intros Heq.
  apply (f_equal (fun f => List.length (points f))) in Heq.
  vm_compute in Heq. discriminate Heq.
Qed.

(** C7, amended, on the example: the first cycle. *)
Lemma callback_leaves_pose_in_statics_witness :
  exists st',
    scan_mathcher scan1 st0 = Some (tt, st') /\
    position (pose (current_pub_pose st')) =
      mkPoint (v3_x (current_pose st')) (v3_y (current_pose st')) 0.
Proof.
  assert (Hfree : matcher_mutex st0 = false) by reflexivity.
  destruct (callback_leaves_pose_in_statics scan1 st0 Hfree)
    as (st' & Hrun & _ & _ & _ & _ & Hpos & _).
  exists st'. auto.
Defined.

(** C7, as stated, fails on the example: the two calls give their callers
    the same value, and the poses they accept differ. *)
Lemma callback_result_hides_pose :
  option_map fst (scan_mathcher scan1 st0) = option_map fst (scan_mathcher scan2 st1) /\
  current_pose st1 <> current_pose st2.
Proof.
  split; [vm_compute; reflexivity | ].
  intros Heq. apply (f_equal v3_x) in Heq. revert Heq.
  apply float_neq; vm_compute; reflexivity.
Qed.

(** C8, as stated, fails on the example: in a turn of the loop in which
    [scan1] waits, the callback has released the mutex before the loop reads
    the message and publishes it; and that turn, through the callback that
    [ros::spinOnce()] runs in it, changes the reference frame. *)
Lemma publication_is_not_under_lock :
  mutex_at_publishes false
    (trace (after (main_loop [([scan1], mkTime 1 0)]) st0)) = [false] /\
  trace (after (main_loop [([scan1], mkTime 1 0)]) st0) =
    [EvLock; EvUnlock; EvPublish (current_pub_pose st1);
     EvSendTransform (map_to_laser (current_pub_pose st1) (mkTime 1 0))] /\
  ref_frame (after (main_loop [([scan1], mkTime 1 0)]) st0) <> ref_frame st0.
Proof.
  split; [vm_compute; reflexivity | ].
  split; [vm_compute; reflexivity | ].
  intros Heq.
  apply (f_equal (fun f => List.length (points f))) in Heq.
  vm_compute in Heq. discriminate Heq.
Qed.

(** C5, as stated, fails on the example: the first cycle returns, and the
    local frame it leaves for the second scan has the same extent as the one
    built at start-up, but one cell of 100 m per axis where that one has 200
    cells of 0.5 m; its cell side is not the configured one. *)
Lemma rebuilt_local_frame_is_one_cell :
  exec (scan_mathcher scan1) st0 st1 /\
  width (current_frame st0) = 100%Z /\
  cell_side (current_frame st0) = 0.5 /\
  cells_per_axis (current_frame st0) = 200 /\
  width (current_frame st1) = 100%Z /\
  cell_side (current_frame st1) = 100 /\
  cells_per_axis (current_frame st1) = 1 /\
  param_cell_side st1 = 0.5 /\
  cell_side (current_frame st1) <> param_cell_side st1.
Proof.
  split; [vm_compute; reflexivity | ].
  do 7 (split; [vm_compute; reflexivity | ]).
  apply float_neq; vm_compute; reflexivity.
Qed.

(** C6 on the example: the frame of the first scan is 0.25 m ahead, the
    frame of the second scan is not, and the same scan loaded into the one
    and into the other gives different points. *)
Lemma reallocated_frame_origin_example :
  s_trans (current_frame st0) = mkVector3d 0.25 0 0 /\
  s_trans (current_frame st1) = mkVector3d 0 0 0 /\
  map v2_x (points (loaded_frame scan1 st0)) <> map v2_x (points (loaded_frame scan1 st1)).
Proof.
  split; [vm_compute; reflexivity | ].
  split; [vm_compute; reflexivity | ].
  intros Heq. apply (f_equal (fun l => nth 1 l 0)) in Heq. revert Heq.
  apply float_neq; vm_compute; reflexivity.
Qed.

End Examples.

(* ================================================================= *)
(** * The name of the export files *)

Section ExportName.

Lemma first_slash_none (s : std_string) :
  first_slash s = None -> map underscored s = s.
Proof.
  induction s as [ | c rest IH]; simpl; [reflexivity | ].
  unfold underscored at 1.
  destruct (Ascii.eqb c slash); [discriminate | ].
  destruct (first_slash rest); [discriminate | ].
  intros _. now rewrite IH.
Qed.

Lemma first_slash_some (s : std_string) :
  forall i, first_slash s = Some i ->
    exists a b, s = a ++ slash :: b /\ List.length a = i /\ first_slash a = None.
Proof.
  induction s as [ | c rest IH]; simpl; intros i Hi; [discriminate | ].
  destruct (Ascii.eqb c slash) eqn:Hc.
  - apply Ascii.eqb_eq in Hc. subst c. injection Hi as <-.
    exists [], rest. auto.
  - destruct (first_slash rest) as [j | ]; [ | discriminate].
    injection Hi as <-.
    destruct (IH j eq_refl) as (a & b & -> & Hlen & Hnone).
    exists (c :: a), b. simpl. rewrite Hc, Hnone, Hlen. auto.
Qed.

Lemma firstn_prefix (pre rest : std_string) :
  firstn (List.length pre) (pre ++ rest) = pre.
Proof.
  induction pre as [ | a pre IH]; simpl; [now destruct rest | now rewrite IH].
Qed.

Lemma skipn_prefix (pre rest : std_string) :
  skipn (List.length pre) (pre ++ rest) = rest.
Proof.
  induction pre as [ | a pre IH]; simpl; auto.
Qed.

Lemma replace_by_underscore_at (pre : std_string) (c : Ascii.ascii) (post : std_string) :
  replace_by_underscore (pre ++ c :: post) (List.length pre)
  = Some (pre ++ underscore :: post).
Proof.
  unfold replace_by_underscore.
  replace (List.length pre <=? List.length (pre ++ c :: post))%nat with true
    by (symmetry; apply Nat.leb_le; rewrite length_app; lia).
  rewrite firstn_prefix.
  replace (skipn (S (List.length pre)) (pre ++ c :: post)) with post; [reflexivity | ].
  symmetry.
  replace (S (List.length pre)) with (List.length (pre ++ [c]))
    by (rewrite length_app; simpl; lia).
  replace (pre ++ c :: post) with ((pre ++ [c]) ++ post)
    by (rewrite <- app_assoc; reflexivity).
  apply skipn_prefix.
Qed.

Lemma find_slash_after (pre post : std_string) :
  find_slash (pre ++ underscore :: post) (List.length pre)
  = option_map (fun i => List.length pre + S i)%nat (first_slash post).
Proof.
  unfold find_slash.
  rewrite skipn_prefix. simpl.
  destruct (first_slash post); reflexivity.
Qed.

(** The loop entered at a position [pos] of the string ends, within one
    turn per character behind [pos], on the string with '_' at [pos] and
    for every '/' behind it. *)
Lemma rename_loop_from (fuel : nat) :
  forall pre c post,
    (List.length post < fuel)%nat ->
    rename_loop fuel (pre ++ c :: post) (List.length pre)
    = Returned (pre ++ underscore :: map underscored post).
Proof.
  induction fuel as [ | fuel IH]; intros pre c post Hfuel; [lia | ].
  simpl. rewrite replace_by_underscore_at, find_slash_after.
  destruct (first_slash post) as [i | ] eqn:Hpost; simpl.
  - destruct (first_slash_some _ Hpost) as (a & b & -> & Hlen & Hnone).
    rewrite length_app in Hfuel. simpl in Hfuel.
    replace (pre ++ underscore :: a ++ slash :: b)
      with ((pre ++ underscore :: a) ++ slash :: b)
      by (rewrite <- app_assoc; reflexivity).
    replace (List.length pre + S i)%nat with (List.length (pre ++ underscore :: a))
      by (rewrite length_app; simpl; lia).
    rewrite IH by lia.
    rewrite map_app, (first_slash_none _ Hnone), <- app_assoc. simpl.
    unfold underscored at 2. now rewrite Ascii.eqb_refl.
  - now rewrite (first_slash_none _ Hpost).
Qed.

(** X4. The do-while loop that [main] runs on the scan topic ends for every
    topic, within one turn more than the topic has characters; it never
    throws; and it returns the topic with its first character overwritten by
    '_' - whatever that character was - and every other '/' turned into '_'.
    The empty topic becomes "_". *)
Theorem rename_loop_result (s : std_string) (spare : nat) :
  rename_loop (S (List.length s) + spare) s 0
  = Returned (underscore :: map underscored (tl s)).
Proof.
  destruct s as [ | c post].
  - reflexivity.
  - change (c :: post) with ([] ++ c :: post) at 2.
    change 0%nat with (List.length (@nil Ascii.ascii)).
    rewrite rename_loop_from by (simpl; lia).
    reflexivity.
Qed.

Lemma underscored_not_slash (c : Ascii.ascii) : underscored c <> slash.
Proof.
  unfold underscored. destruct (Ascii.eqb c slash) eqn:Hc.
  - discriminate.
  - apply Ascii.eqb_neq. exact Hc.
Qed.

(** X5. Whatever the scan topic is set to, the name that [main] derives from
    it holds no '/', so it names a file and not a path; it is as long as the
    topic, and one character long for the empty topic. *)
Theorem export_topic_has_no_slash (ps : ParamServer) (spare : nat) :
  let topic := list_ascii_of_string (nh_param (p_scan_topic ps) DEFAULT_SCAN_TOPIC) in
  exists name,
    export_topic (S (List.length topic) + spare) ps = Returned name /\
    Forall (fun c => c <> slash) name /\
    List.length name = Nat.max 1 (List.length topic).
Proof.
  intros topic. unfold export_topic. fold topic.
  rewrite rename_loop_result.
  eexists. split; [reflexivity | ]. split.
  - constructor; [discriminate | ].
    rewrite Forall_map, Forall_forall. intros c _. apply underscored_not_slash.
  - simpl. rewrite length_map. destruct topic; reflexivity.
Qed.

(** X6. The loop overwrites the first character of the topic without
    looking at it, and it does not tell a '/' from a '_': two topics that
    differ only in their first character, or only in writing '_' for some
    '/', get the same name. *)
Theorem rename_loop_collisions :
  (forall (c d : Ascii.ascii) (s : std_string) (spare : nat),
     rename_loop (S (List.length (c :: s)) + spare) (c :: s) 0
     = rename_loop (S (List.length (d :: s)) + spare) (d :: s) 0) /\
  (forall (s : std_string) (spare : nat),
     rename_loop (S (List.length (map underscored s)) + spare) (map underscored s) 0
     = rename_loop (S (List.length s) + spare) s 0).
Proof.
  split.
  - intros c d s spare. now rewrite !rename_loop_result.
  - intros s spare. rewrite !rename_loop_result. f_equal. f_equal.
    destruct s as [ | c rest]; [reflexivity | ]. simpl.
    rewrite map_map. apply map_ext. intros a.
    unfold underscored at 1.
    destruct (Ascii.eqb (underscored a) slash) eqn:Ha; [ | reflexivity].
    apply Ascii.eqb_eq in Ha. now apply underscored_not_slash in Ha.
Qed.

End ExportName.

(* ================================================================= *)
(** * Runs of the loop and runs of the callback alone *)

Section Batching.

Context {E : Externals}.

Local Open Scope node_scope.

Lemma exec_unique (m : M unit) (s a b : State) : exec m s a -> exec m s b -> a = b.
Proof.
  unfold exec. intros Ha Hb. congruence.
Qed.

Lemma same_statics_trans (a b c : State) :
  same_statics a b -> same_statics b c -> same_statics a c.
Proof.
  unfold same_statics. congruence.
Qed.

(** [ros::spinOnce()] on one batch of scans and then on another is
    [ros::spinOnce()] on the two batches together. *)
Lemma spinOnce_app (a b : list LaserScan) :
  forall st, spinOnce (a ++ b) st = (spinOnce a ;; spinOnce b) st.
Proof.
  induction a as [ | scan rest IH]; intros st; simpl.
  - reflexivity.
  - unfold bind.
    destruct (scan_mathcher scan st) as [[u s1] | ]; [ | reflexivity].
    rewrite IH. reflexivity.
Qed.

(** The callback does not read the events: from two states with the same
    statics it leaves two states with the same statics. *)
Lemma scan_mathcher_same (scan : LaserScan) (st st' : State) :
  same_statics st st' -> matcher_mutex st = false ->
  exists s s',
    exec (scan_mathcher scan) st s /\ exec (scan_mathcher scan) st' s' /\
    same_statics s s' /\ matcher_mutex s = false.
Proof.
  intros Hsame Hfree.
  destruct st as [mm pfs pcs fi ni pp te ip cp cf rf gm cpp it rp tr].
  destruct st' as [mm' pfs' pcs' fi' ni' pp' te' ip' cp' cf' rf' gm' cpp' it' rp' tr'].
  unfold same_statics in Hsame. simpl in Hsame, Hfree.
  injection Hsame as <- <- <- <- <- <- <- <- <- <- <- <- <- <- <-.
  subst mm.
  unfold exec, same_statics.
  destruct fi, (it =? 0)%Z eqn:Hit;
    (do 2 eexists;
     split; [cbv [scan_mathcher lock unlock load_scan estimate_pose accept_pose
                  fuse_reference fuse_map fill_pub_pose reallocate_frame
                  count_iteration bind gets modify ret emit];
             simpl; rewrite ?Hit; simpl; reflexivity | ];
     split; [cbv [scan_mathcher lock unlock load_scan estimate_pose accept_pose
                  fuse_reference fuse_map fill_pub_pose reallocate_frame
                  count_iteration bind gets modify ret emit];
             simpl; rewrite ?Hit; simpl; reflexivity | ];
     split; reflexivity).
Qed.

Lemma spinOnce_same (scans : list LaserScan) :
  forall st st', same_statics st st' -> matcher_mutex st = false ->
    exists s s',
      exec (spinOnce scans) st s /\ exec (spinOnce scans) st' s' /\
      same_statics s s' /\ matcher_mutex s = false.
Proof.
  induction scans as [ | scan rest IH]; intros st st' Hsame Hfree.
  - exists st, st'. repeat split; assumption.
  - destruct (scan_mathcher_same scan Hsame Hfree) as (s1 & s1' & Hrun & Hrun' & Hsame1 & Hfree1).
    destruct (IH s1 s1' Hsame1 Hfree1) as (s2 & s2' & Hrest & Hrest' & Hsame2 & Hfree2).
    exists s2, s2'. simpl.
    split; [eapply exec_bind; eassumption | ].
    split; [eapply exec_bind; eassumption | ].
    split; assumption.
Qed.

Lemma publish_step_same (now : ros_Time) (st : State) :
  exists st', exec (publish_step now) st st' /\ same_statics st' st.
Proof.
  destruct (publish_step_effect now st) as (st' & Hrun & _ & Hsame).
  exists st'. split; [exact Hrun | ].
  unfold same_statics. rewrite <- Hsame. now destruct st'.
Qed.

Lemma same_statics_mutex (a b : State) :
  same_statics a b -> matcher_mutex a = matcher_mutex b.
Proof.
  intros Hsame. apply (f_equal matcher_mutex) in Hsame. exact Hsame.
Qed.

Lemma main_loop_as_spinOnce (turns : list (list LaserScan * ros_Time)) :
  forall st st', same_statics st st' -> matcher_mutex st = false ->
    exists s s',
      exec (main_loop turns) st s /\ exec (spinOnce (scans_of turns)) st' s' /\
      same_statics s s' /\ matcher_mutex s = false.
Proof.
  induction turns as [ | [scans now] rest IH]; intros st st' Hsame Hfree.
  - exists st, st'. repeat split; assumption.
  - destruct (spinOnce_same scans Hsame Hfree) as (s1 & s1' & Hspin & Hspin' & Hsame1 & Hfree1).
    destruct (publish_step_same now s1) as (s2 & Hpub & Hsame2).
    assert (Hsame2' : same_statics s2 s1') by (eapply same_statics_trans; eassumption).
    assert (Hfree2 : matcher_mutex s2 = false)
      by (rewrite (same_statics_mutex Hsame2); exact Hfree1).
    destruct (IH s2 s1' Hsame2' Hfree2) as (s3 & s3' & Hrest & Hrest' & Hsame3 & Hfree3).
    exists s3, s3'.
    split; [ | split; [ | split; assumption]].
    + simpl. unfold loop_iteration. simpl.
      eapply exec_bind; [ | exact Hrest].
      eapply exec_bind; eassumption.
    + unfold scans_of. simpl. fold (scans_of rest).
      unfold exec. rewrite spinOnce_app.
      eapply exec_bind; eassumption.
Qed.

(** X7. The statics of the node after a run of the loop - poses, frames,
    counters, pose message, random source - are those that the callback
    alone leaves after the same scans in the same order: they depend neither
    on how the scans fall into the turns of the loop nor on the clock, and
    the publishing in between changes nothing of them. *)
Theorem statics_ignore_turns
    (ps : ParamServer) (transform : StampedTransform)
    (turns : list (list LaserScan * ros_Time)) :
  exists s s',
    exec (main_loop turns) (main_init ps transform) s /\
    exec (spinOnce (scans_of turns)) (main_init ps transform) s' /\
    set_trace [] s = set_trace [] s'.
Proof.
  destruct (@main_loop_as_spinOnce turns (main_init ps transform)
              (main_init ps transform) eq_refl eq_refl)
    as (s & s' & Hloop & Hspin & Hsame & _).
  exists s, s'. auto.
Qed.

End Batching.

(* ================================================================= *)
(** * What a run leaves in the statics *)

Section RunSummary.

Context {E : Externals}.

Local Open Scope node_scope.

Lemma pose_message_old (old old' : PoseStamped) (scan : LaserScan) (p : Vector3d) :
  hdr_seq (header old) = hdr_seq (header old') ->
  pose_message old scan p = pose_message old' scan p.
Proof.
  unfold pose_message. intros ->. reflexivity.
Qed.

(** What the callbacks of a batch of scans keep: the parameters, the initial
    pose, the sequence number of the pose message; and they count. *)
Lemma spinOnce_keeps (scans : list LaserScan) :
  forall st,
    matcher_mutex st = false ->
    (0 <= number_of_iters st < 2 ^ 32)%Z ->
    exists st',
      exec (spinOnce scans) st st' /\
      matcher_mutex st' = false /\
      param_frame_size st' = param_frame_size st /\
      initial_pose st' = initial_pose st /\
      hdr_seq (header (current_pub_pose st')) = hdr_seq (header (current_pub_pose st)) /\
      number_of_iters st' =
        ((number_of_iters st + Z.of_nat (List.length scans)) mod 2 ^ 32)%Z /\
      (0 <= number_of_iters st' < 2 ^ 32)%Z.
Proof.
  induction scans as [ | scan rest IH]; intros st Hfree Hnum.
  - exists st. simpl. rewrite Z.add_0_r, Z.mod_small by exact Hnum.
    repeat split; tauto.
  - destruct (scan_mathcher_effect scan st Hfree)
      as (s1 & Hrun & Hfree1 & _ & _ & _ & _ & _ & _ & _ & Hmsg & _ & Hcount & _
          & Hsize & _ & Hinit & _).
    assert (Hnum1 : (0 <= number_of_iters s1 < 2 ^ 32)%Z).
    { rewrite Hcount. unfold to_unsigned_int. apply Z.mod_pos_bound. reflexivity. }
    destruct (IH s1 Hfree1 Hnum1)
      as (s2 & Hrest & Hfree2 & Hsize2 & Hinit2 & Hseq2 & Hcount2 & Hnum2).
    exists s2.
    split; [simpl; eapply exec_bind; eassumption | ].
    split; [exact Hfree2 | ].
    split; [congruence | ].
    split; [congruence | ].
    split; [rewrite Hseq2, Hmsg; reflexivity | ].
    split; [ | exact Hnum2].
    rewrite Hcount2, Hcount. unfold to_unsigned_int.
    change (List.length (scan :: rest)) with (S (List.length rest)).
    rewrite Nat2Z.inj_succ, Zplus_mod_idemp_l. f_equal. lia.
Qed.

(** The statics that the last scan of a run decides.  [scans] is the run
    without its last scan [scan]. *)
Lemma spinOnce_last (scans : list LaserScan) (scan : LaserScan) (st : State) :
  matcher_mutex st = false ->
  (0 <= number_of_iters st < 2 ^ 32)%Z ->
  exists st',
    exec (spinOnce (scans ++ [scan])) st st' /\
    first_iteration st' = false /\
    previous_pose st' = current_pose st' /\
    current_pub_pose st' = pose_message (current_pub_pose st) scan (current_pose st') /\
    current_frame st' =
      NDTFrame_new (initial_pose st) (to_unsigned_short (param_frame_size st))
                   (to_unsigned_short (param_frame_size st))
                   (int_to_double (param_frame_size st)) false None.
Proof.
  intros Hfree Hnum.
  destruct (spinOnce_keeps scans st Hfree Hnum)
    as (s1 & Hrun1 & Hfree1 & Hsize1 & Hinit1 & Hseq1 & _).
  destruct (scan_mathcher_effect scan s1 Hfree1)
    as (s2 & Hrun2 & _ & Hfirst & Hcur & Hprev & _ & _ & _ & Hframe & Hmsg & _).
  exists s2.
  split.
  - unfold exec. rewrite spinOnce_app.
    eapply exec_bind; [exact Hrun1 | ].
    simpl. unfold exec in *. unfold bind. now rewrite Hrun2.
  - split; [exact Hfirst | ].
    split; [congruence | ].
    split.
    + rewrite Hmsg, Hcur. now apply pose_message_old.
    + rewrite Hframe, Hsize1, Hinit1. reflexivity.
Qed.

Lemma main_init_counts (ps : ParamServer) (transform : StampedTransform) :
  (0 <= number_of_iters (main_init ps transform) < 2 ^ 32)%Z.
Proof.
  simpl. lia.
Qed.

(** X8. After any run of the loop from start-up the previous pose is the
    current pose; and the pose message is the one made from the current pose
    and the stamp of the last scan processed - the value-initialised message,
    with the pose still zero, when no scan was processed. *)
Theorem pose_message_tracks_estimate
    (ps : ParamServer) (transform : StampedTransform)
    (turns : list (list LaserScan * ros_Time)) :
  exists st',
    exec (main_loop turns) (main_init ps transform) st' /\
    previous_pose st' = current_pose st' /\
    match rev (scans_of turns) with
    | [] => current_pub_pose st' = PoseStamped_default /\
            current_pose st' = Vector3d_Zero
    | scan :: _ =>
        current_pub_pose st' = pose_message PoseStamped_default scan (current_pose st')
    end.
Proof.
  destruct (@main_loop_as_spinOnce _ turns (main_init ps transform)
              (main_init ps transform) eq_refl eq_refl)
    as (s & s' & Hloop & Hspin & Hsame & _).
  exists s. split; [exact Hloop | ].
  assert (Hprev : previous_pose s = previous_pose s')
    by exact (f_equal previous_pose Hsame).
  assert (Hcur : current_pose s = current_pose s')
    by exact (f_equal current_pose Hsame).
  assert (Hmsg : current_pub_pose s = current_pub_pose s')
    by exact (f_equal current_pub_pose Hsame).
  rewrite Hprev, Hcur, Hmsg. clear Hprev Hcur Hmsg Hsame Hloop.
  destruct (rev (scans_of turns)) as [ | scan before] eqn:Hrev.
  - apply (f_equal (@rev _)) in Hrev. rewrite rev_involutive in Hrev. simpl in Hrev.
    rewrite Hrev in Hspin. unfold exec in Hspin. simpl in Hspin.
    injection Hspin as <-. repeat split.
  - apply (f_equal (@rev _)) in Hrev. rewrite rev_involutive in Hrev. simpl in Hrev.
    rewrite Hrev in Hspin.
    destruct (@spinOnce_last (rev before) scan (main_init ps transform) eq_refl
                (main_init_counts ps transform))
      as (s2 & Hrun & _ & Hprev & Hmsg & _).
    rewrite (exec_unique Hspin Hrun). split; assumption.
Qed.

(** X9. After any run of the loop from start-up, [number_of_iters] is the
    number of scans processed, modulo 2^32; [first_iteration] is true exactly
    as long as that number is zero; and [iter_num] is that number modulo
    10. *)
Theorem counters_count_scans
    (ps : ParamServer) (transform : StampedTransform)
    (turns : list (list LaserScan * ros_Time)) :
  exists st',
    exec (main_loop turns) (main_init ps transform) st' /\
    number_of_iters st' = (Z.of_nat (List.length (scans_of turns)) mod 2 ^ 32)%Z /\
    first_iteration st' = (List.length (scans_of turns) =? 0)%nat /\
    iter_num st' = (Z.of_nat (List.length (scans_of turns)) mod 10)%Z.
Proof.
  destruct (@main_loop_as_spinOnce _ turns (main_init ps transform)
              (main_init ps transform) eq_refl eq_refl)
    as (s & s' & Hloop & Hspin & Hsame & _).
  destruct (main_loop_effect turns (main_init_idle ps transform) eq_refl)
    as (s0 & Hloop0 & _ & Hiter & _).
  rewrite (exec_unique Hloop0 Hloop) in Hiter.
  exists s. split; [exact Hloop | ].
  rewrite (f_equal number_of_iters Hsame : number_of_iters s = number_of_iters s').
  rewrite (f_equal first_iteration Hsame : first_iteration s = first_iteration s').
  split; [ | split; [ | exact Hiter]].
  - destruct (spinOnce_keeps (scans_of turns) (main_init ps transform) eq_refl
                (main_init_counts ps transform))
      as (s2 & Hrun & _ & _ & _ & _ & Hcount & _).
    rewrite (exec_unique Hspin Hrun), Hcount. reflexivity.
  - destruct (rev (scans_of turns)) as [ | scan before] eqn:Hrev;
      apply (f_equal (@rev _)) in Hrev; rewrite rev_involutive in Hrev;
      simpl in Hrev; rewrite Hrev in *.
    + unfold exec in Hspin. simpl in Hspin. injection Hspin as <-. reflexivity.
    + destruct (@spinOnce_last (rev before) scan (main_init ps transform) eq_refl
                  (main_init_counts ps transform))
        as (s2 & Hrun & Hfirst & _).
      rewrite (exec_unique Hspin Hrun), Hfirst, length_app. simpl.
      symmetry. apply Nat.eqb_neq. lia.
Qed.

(** X11. After any run of the loop from start-up in which a scan was
    processed, the local frame that waits for the next scan is always the
    same one: origin (0, 0, 0), the frame size (as [unsigned short]) for its
    width and height, the frame size for its cell side, no point; only
    before the first scan is it the frame that [main] built. *)
Theorem local_frame_is_rebuilt_alike
    (ps : ParamServer) (transform : StampedTransform)
    (turns : list (list LaserScan * ros_Time)) :
  exists st',
    exec (main_loop turns) (main_init ps transform) st' /\
    current_frame st' =
      match scans_of turns with
      | [] => current_frame (main_init ps transform)
      | _ :: _ =>
          NDTFrame_new Vector3d_Zero
            (to_unsigned_short (nh_param (p_frame_size ps) DEFAULT_FRAME_SIZE_M))
            (to_unsigned_short (nh_param (p_frame_size ps) DEFAULT_FRAME_SIZE_M))
            (int_to_double (nh_param (p_frame_size ps) DEFAULT_FRAME_SIZE_M))
            false None
      end.
Proof.
  destruct (@main_loop_as_spinOnce _ turns (main_init ps transform)
              (main_init ps transform) eq_refl eq_refl)
    as (s & s' & Hloop & Hspin & Hsame & _).
  exists s. split; [exact Hloop | ].
  rewrite (f_equal current_frame Hsame : current_frame s = current_frame s').
  destruct (rev (scans_of turns)) as [ | scan before] eqn:Hrev;
    apply (f_equal (@rev _)) in Hrev; rewrite rev_involutive in Hrev;
    simpl in Hrev; rewrite Hrev in *.
  - unfold exec in Hspin. simpl in Hspin. injection Hspin as <-. reflexivity.
  - destruct (@spinOnce_last (rev before) scan (main_init ps transform) eq_refl
                (main_init_counts ps transform))
      as (s2 & Hrun & _ & _ & _ & Hframe).
    rewrite (exec_unique Hspin Hrun), Hframe.
    destruct (rev before ++ [scan]) eqn:Hlist; [ | reflexivity].
    now destruct (rev before).
Qed.

(** C5. Every local frame covers the same extent: at start-up and after any
    run of the loop its width and its height are the frame size as
    [unsigned short].  The cell side is another matter: the local frame that
    [main] builds has the configured cell side, and every local frame rebuilt
    at the end of a cycle has the frame size for its cell side. *)
Theorem local_frame_keeps_extent_not_cell_side
    (ps : ParamServer) (transform : StampedTransform)
    (turns : list (list LaserScan * ros_Time)) :
  let frame_size := nh_param (p_frame_size ps) DEFAULT_FRAME_SIZE_M in
  exists st',
    exec (main_loop turns) (main_init ps transform) st' /\
    width (current_frame st') = to_unsigned_short frame_size /\
    height (current_frame st') = to_unsigned_short frame_size /\
    cell_side (current_frame st') =
      match scans_of turns with
      | [] => nh_param (p_cell_side ps) DEFAULT_CELL_SIZE_M
      | _ :: _ => int_to_double frame_size
      end.
Proof.
  intros frame_size.
  destruct (@main_loop_as_spinOnce _ turns (main_init ps transform)
              (main_init ps transform) eq_refl eq_refl)
    as (s & s' & Hloop & Hspin & Hsame & _).
  exists s. split; [exact Hloop | ].
  rewrite (f_equal current_frame Hsame : current_frame s = current_frame s').
  destruct (rev (scans_of turns)) as [ | scan before] eqn:Hrev;
    apply (f_equal (@rev _)) in Hrev; rewrite rev_involutive in Hrev;
    simpl in Hrev; rewrite Hrev in *.
  - unfold exec in Hspin. simpl in Hspin. injection Hspin as <-.
    repeat split.
  - destruct (@spinOnce_last (rev before) scan (main_init ps transform) eq_refl
                (main_init_counts ps transform))
      as (s2 & Hrun & _ & _ & _ & Hframe).
    rewrite (exec_unique Hspin Hrun), Hframe.
    destruct (rev before ++ [scan]) eqn:Hlist; [now destruct (rev before) | ].
    repeat split.
Qed.

End RunSummary.

(* ================================================================= *)
(** * The events of a run *)

Section RunEvents.

Context {E : Externals}.

Local Open Scope node_scope.

Lemma spinOnce_flat (scans : list LaserScan) :
  forall st, idle st -> flat_message st ->
    exists st',
      exec (spinOnce scans) st st' /\ idle st' /\ flat_message st' /\
      trace st' = trace st ++ cycles_trace (List.length scans).
Proof.
  induction scans as [ | scan rest IH]; intros st Hidle Hflat.
  - exists st. simpl. rewrite app_nil_r. repeat split; try assumption; apply Hidle.
  - destruct Hidle as [Hfree Hnum].
    destruct (scan_mathcher_effect scan st Hfree)
      as (s1 & Hrun & Hfree1 & _ & _ & _ & _ & _ & Hit & _ & Hmsg & _ & _ & Htr & _).
    assert (Hidle1 : idle s1).
    { split; [exact Hfree1 | ]. rewrite Hit. apply Z.mod_pos_bound. reflexivity. }
    assert (Hflat1 : flat_message s1).
    { unfold flat_message. rewrite Hmsg. reflexivity. }
    destruct (IH s1 Hidle1 Hflat1) as (s2 & Hrest & Hidle2 & Hflat2 & Htr2).
    exists s2.
    split; [simpl; eapply exec_bind; eassumption | ].
    split; [exact Hidle2 | ].
    split; [exact Hflat2 | ].
    rewrite Htr2, Htr, <- app_assoc. reflexivity.
Qed.

Lemma main_loop_events (turns : list (list LaserScan * ros_Time)) :
  forall st, idle st -> flat_message st ->
    exists st' msgs,
      exec (main_loop turns) st st' /\
      List.length msgs = List.length turns /\
      Forall (fun m => pt_z (position (pose m)) = 0%float) msgs /\
      trace st' = trace st ++ run_events turns msgs.
Proof.
  induction turns as [ | [scans now] rest IH]; intros st Hidle Hflat.
  - exists st, []. simpl. rewrite app_nil_r. repeat split. constructor.
  - destruct (spinOnce_flat scans Hidle Hflat) as (s1 & Hspin & Hidle1 & Hflat1 & Htr1).
    destruct (publish_step_effect now s1) as (s2 & Hpub & Htr2 & Hsame).
    assert (Hidle2 : idle s2).
    { unfold idle. rewrite <- Hsame in Hidle1. exact Hidle1. }
    assert (Hflat2 : flat_message s2).
    { unfold flat_message. rewrite <- Hsame in Hflat1. exact Hflat1. }
    destruct (IH s2 Hidle2 Hflat2) as (s3 & msgs & Hrest & Hlen & Hmsgs & Htr3).
    exists s3, (current_pub_pose s1 :: msgs).
    split.
    { simpl. unfold loop_iteration. simpl.
      eapply exec_bind; [ | exact Hrest].
      eapply exec_bind; eassumption. }
    split; [simpl; now rewrite Hlen | ].
    split; [constructor; assumption | ].
    rewrite Htr3, Htr2, Htr1. simpl. unfold turn_events. simpl.
    rewrite <- !app_assoc. reflexivity.
Qed.

Lemma cycles_trace_planar (n : nat) : Forall planar_event (cycles_trace n).
Proof.
  induction n as [ | n IH]; simpl; repeat constructor. exact IH.
Qed.

Lemma run_events_planar (turns : list (list LaserScan * ros_Time)) :
  forall msgs,
    Forall (fun m => pt_z (position (pose m)) = 0%float) msgs ->
    Forall planar_event (run_events turns msgs).
Proof.
  induction turns as [ | turn rest IH]; intros msgs Hmsgs; simpl.
  - constructor.
  - destruct msgs as [ | m msgs]; [constructor | ].
    inversion Hmsgs as [ | ? ? Hm Hrest]; subst.
    unfold turn_events. rewrite <- app_assoc.
    apply Forall_app. split; [apply cycles_trace_planar | ].
    simpl. constructor; [exact Hm | ].
    constructor; [simpl; auto | ].
    now apply IH.
Qed.

(** X10. In any run of the loop from start-up no call blocks, and the events
    are, turn by turn: a lock and an unlock for each scan of the turn, then
    one publication and the broadcast of the transform made from the very
    message published.  Every message published has z = 0, and every
    transform has z = 0 and leads from "map" to "laser", whatever the
    parameter [scan_frame] is. *)
Theorem run_events_shape
    (ps : ParamServer) (transform : StampedTransform)
    (turns : list (list LaserScan * ros_Time)) :
  exists st' msgs,
    exec (main_loop turns) (main_init ps transform) st' /\
    List.length msgs = List.length turns /\
    trace st' = run_events turns msgs /\
    Forall planar_event (trace st').
Proof.
  assert (Hflat : flat_message (main_init ps transform)) by reflexivity.
  destruct (main_loop_events turns (main_init_idle ps transform) Hflat)
    as (st' & msgs & Hrun & Hlen & Hmsgs & Htr).
  exists st', msgs. simpl in Htr.
  split; [exact Hrun | ].
  split; [exact Hlen | ].
  split; [exact Htr | ].
  rewrite Htr. now apply run_events_planar.
Qed.

(** X12. The width and the height of the frames are the configured sizes cast
    to [unsigned short]: they lie in 0 .. 65535, and the reference frame and
    the local frame are as wide as [frame_size], the map accumulator as wide
    as [map_size], exactly when that parameter lies in 0 .. 65535 itself;
    a larger or a negative size wraps around silently.  The cell side of the
    map accumulator is its size, not cast. *)
Theorem frame_extent_wraps (ps : ParamServer) (transform : StampedTransform) :
  let st := main_init ps transform in
  let frame_size := nh_param (p_frame_size ps) DEFAULT_FRAME_SIZE_M in
  let map_size := nh_param (p_map_size ps) DEFAULT_OUTPUT_MAP_SIZE_M in
  (0 <= width (ref_frame st) < 65536)%Z /\
  (0 <= width (global_map st) < 65536)%Z /\
  height (ref_frame st) = width (ref_frame st) /\
  width (current_frame st) = width (ref_frame st) /\
  height (current_frame st) = width (ref_frame st) /\
  height (global_map st) = width (global_map st) /\
  (width (ref_frame st) = frame_size <-> (0 <= frame_size < 65536)%Z) /\
  (width (global_map st) = map_size <-> (0 <= map_size < 65536)%Z) /\
  cell_side (global_map st) = int_to_double map_size.
Proof.
  intros st frame_size map_size.
  assert (Hcast : forall n, (0 <= to_unsigned_short n < 65536)%Z /\
                            (to_unsigned_short n = n <-> (0 <= n < 65536)%Z)).
  { intros n. unfold to_unsigned_short. change (2 ^ 16)%Z with 65536%Z.
    pose proof (Z.mod_pos_bound n 65536 eq_refl) as Hbound.
    split; [exact Hbound | ]. split.
    - intros Heq. now rewrite Heq in Hbound.
    - intros Hn. now apply Z.mod_small. }
  destruct (Hcast frame_size) as [Hframe_bound Hframe_iff].
  destruct (Hcast map_size) as [Hmap_bound Hmap_iff].
  split; [exact Hframe_bound | ].
  split; [exact Hmap_bound | ].
  split; [reflexivity | ].
  split; [reflexivity | ].
  split; [reflexivity | ].
  split; [reflexivity | ].
  split; [exact Hframe_iff | ].
  split; [exact Hmap_iff | reflexivity].
Qed.

End RunEvents.

(* ================================================================= *)
(** * The two ends of the trajectory *)

Section TrajectoryEnds.

Context {E : Externals}.

Local Open Scope node_scope.

(** A cycle appends one record to the trajectory of the map accumulator:
    the time of its scan and the pose it accepts. *)
Lemma scan_mathcher_record (scan : LaserScan) (st : State) :
  matcher_mutex st = false ->
  exists st',
    exec (scan_mathcher scan) st st' /\ matcher_mutex st' = false /\
    poses (global_map st') =
      poses (global_map st) ++ [(scan_time scan, current_pose st')].
Proof.
  intros Hfree.
  destruct (scan_mathcher_effect scan st Hfree)
    as (st' & Hrun & Hfree' & _ & Hcur & _ & _ & Hmap & _).
  exists st'. split; [exact Hrun | split; [exact Hfree' | ]].
  rewrite Hmap, Hcur. unfold addPose, scan_time. simpl.
  destruct (iter_num st =? 0)%Z; [rewrite update_poses | ]; reflexivity.
Qed.

(** The callbacks of a batch of scans only append to the trajectory. *)
Lemma spinOnce_appends (scans : list LaserScan) :
  forall st, matcher_mutex st = false ->
    exists st' new,
      exec (spinOnce scans) st st' /\ matcher_mutex st' = false /\
      poses (global_map st') = poses (global_map st) ++ new.
Proof.
  induction scans as [ | scan rest IH]; intros st Hfree.
  - exists st, []. simpl. rewrite app_nil_r. repeat split. exact Hfree.
  - destruct (scan_mathcher_record scan st Hfree) as (s1 & Hrun & Hfree1 & Hrec).
    destruct (IH s1 Hfree1) as (s2 & new & Hrest & Hfree2 & Hnew).
    exists s2, ((scan_time scan, current_pose s1) :: new).
    split; [simpl; eapply exec_bind; eassumption | ].
    split; [exact Hfree2 | ].
    rewrite Hnew, Hrec, <- app_assoc. reflexivity.
Qed.

(** X13. After any run of the loop from start-up in which a scan was
    processed, the trajectory of the map accumulator starts with the record
    of the first scan at the initial pose (0, 0, 0) and ends with the record
    of the last scan at the current pose: the last record is the estimate
    that the node publishes.  Without a scan the trajectory is empty. *)
Theorem trajectory_ends_at_estimate
    (ps : ParamServer) (transform : StampedTransform)
    (turns : list (list LaserScan * ros_Time)) :
  exists st',
    exec (main_loop turns) (main_init ps transform) st' /\
    match scans_of turns with
    | [] => poses (global_map st') = []
    | first :: _ =>
        (exists later,
           poses (global_map st') = (scan_time first, Vector3d_Zero) :: later) /\
        (exists earlier,
           poses (global_map st') =
             earlier ++ [(scan_time (last (scans_of turns) first), current_pose st')])
    end.
Proof.
  destruct (@main_loop_as_spinOnce _ turns (main_init ps transform)
              (main_init ps transform) eq_refl eq_refl)
    as (s & s' & Hloop & Hspin & Hsame & _).
  exists s. split; [exact Hloop | ].
  rewrite (f_equal global_map Hsame : global_map s = global_map s').
  rewrite (f_equal current_pose Hsame : current_pose s = current_pose s').
  clear Hloop Hsame.
  destruct (scans_of turns) as [ | first rest] eqn:Hscans.
  - unfold exec in Hspin. simpl in Hspin. injection Hspin as <-. reflexivity.
  - split.
    + (* the first record *)
      destruct (scan_mathcher_effect first (main_init ps transform) eq_refl)
        as (s1 & Hrun1 & Hfree1 & _ & Hcur1 & _).
      destruct (scan_mathcher_record first (main_init ps transform) eq_refl)
        as (s1' & Hrun1' & _ & Hrec1).
      rewrite <- (exec_unique Hrun1 Hrun1') in Hrec1. clear Hrun1' s1'.
      destruct (spinOnce_appends rest s1 Hfree1) as (s2 & new & Hrest & _ & Hnew).
      assert (Hall : exec (spinOnce (first :: rest)) (main_init ps transform) s2)
        by (simpl; eapply exec_bind; eassumption).
      rewrite (exec_unique Hspin Hall), Hnew, Hrec1, Hcur1.
      exists new. reflexivity.
    + (* the last record *)
      destruct (@exists_last _ (first :: rest)) as (before & final & Hlast);
        [discriminate | ].
      rewrite Hlast in Hspin |- *. rewrite last_last.
      destruct (spinOnce_appends before (main_init ps transform) eq_refl)
        as (s1 & new & Hrun1 & Hfree1 & Hnew).
      destruct (scan_mathcher_record final s1 Hfree1) as (s2 & Hrun2 & _ & Hrec).
      assert (Hall : exec (spinOnce (before ++ [final])) (main_init ps transform) s2).
      { unfold exec. rewrite spinOnce_app.
        eapply exec_bind; [exact Hrun1 | ].
        simpl. unfold exec in Hrun2 |- *. unfold bind. now rewrite Hrun2. }
      rewrite (exec_unique Hspin Hall), Hrec.
      eexists. reflexivity.
Qed.

End TrajectoryEnds.
